(** * NKSR encoder / decoder networks ([nksr/nn/encdec.py])

    A shallow embedding of [ResnetBlockFC], [PointEncoder] and
    [MultiscalePointDecoder] and the properties of their construction and
    forward passes.

    Tensors are two-dimensional: a column count and a list of rows.  The
    element type is abstract (class [Scalar]): the structural results hold
    for any arithmetic, the algebraic ones are stated for arithmetic that
    obeys the laws of [ExactScalar] or [CommScalar].  Two instances are
    given: the canonical rationals [Qc], arithmetic without rounding, and
    [F32], single-precision floating point with its rounding written out,
    for the results that depend on rounding. *)

From Stdlib Require Import ZArith List Bool Lia String QArith Qcanon Qround Lqa.
From Stdlib Require Import Qpower.
From Stdlib Require Qcabs SpecFloat.
From stdpp Require Import gmap sorting.
Import ListNotations.

Local Open Scope nat_scope.

(** ** Python exceptions and the error monad *)

Inductive error : Set :=
| AssertionError
| NotImplementedError
| AttributeError
| KeyError
| IndexError
| TypeError
| ValueError
| RuntimeError.

Inductive result (A : Type) : Type :=
| Ok (a : A)
| Err (e : error).
Arguments Ok {A} a.
Arguments Err {A} e.

Definition bind {A B} (m : result A) (k : A -> result B) : result B :=
  match m with
  | Ok a => k a
  | Err e => Err e
  end.

Notation "'do' x <- m ; k" := (bind m (fun x => k))
  (at level 10, x name, m at level 100, k at level 200).

Definition is_err {A} (m : result A) : Prop :=
  match m with Ok _ => False | Err _ => True end.

(** [for x in l: acc = f(acc, x)] where the body may raise. *)
Fixpoint foldM {A B} (f : B -> A -> result B) (l : list A) (acc : B) : result B :=
  match l with
  | [] => Ok acc
  | x :: l' => do acc' <- f acc x; foldM f l' acc'
  end.

(** [[f(x) for x in l]] where [f] may raise: the first failure wins. *)
Fixpoint mapM {A B} (f : A -> result B) (l : list A) : result (list B) :=
  match l with
  | [] => Ok []
  | x :: l' => do y <- f x; do ys <- mapM f l'; Ok (y :: ys)
  end.

(** Python list indexing [l[i]]: negative indices count from the end. *)
Definition list_getitem {A} (l : list A) (i : Z) : result A :=
  let n := Z.of_nat (length l) in
  let j := if (i <? 0)%Z then (i + n)%Z else i in
  if (j <? 0)%Z then Err IndexError
  else match l !! Z.to_nat j with
       | Some a => Ok a
       | None => Err IndexError
       end.

(** ** Scalars *)

Class Scalar (T : Type) : Type := {
  s_zero : T;
  s_one : T;
  s_half : T;                    (* the literal 0.5 *)
  s_add : T -> T -> T;
  s_sub : T -> T -> T;
  s_mul : T -> T -> T;
  s_div : T -> T -> T;
  s_max : T -> T -> T;
  s_rem : T -> T -> T;           (* Python [%] / torch.remainder *)
  s_round_int : T -> Z           (* [.round().int()] *)
}.

(** The laws of exact arithmetic that the numerical results rest on. *)
Class ExactScalar (T : Type) `{Scalar T} : Prop := {
  s_add_0_l : forall x, s_add s_zero x = x;
  s_add_0_r : forall x, s_add x s_zero = x;
  s_mul_0_r : forall x, s_mul x s_zero = s_zero;
  s_mul_1_l : forall x, s_mul s_one x = x;
  s_mul_add_distr_r : forall x y z, s_mul (s_add x y) z = s_add (s_mul x z) (s_mul y z);
  s_div_0_1 : s_div s_zero s_one = s_zero
}.

Section Model.

Context {T : Type} `{Scalar T}.

Definition relu (x : T) : T := s_max x s_zero.

(** A count converted to a scalar: 1 + 1 + ... + 1. *)
Fixpoint s_of_nat (n : nat) : T :=
  match n with
  | O => s_zero
  | S O => s_one
  | S n' => s_add (s_of_nat n') s_one
  end.

(** ** Tensors *)

Record Tensor : Type := mkTensor {
  ncols : nat;
  rows : list (list T)
}.

Definition nrows (t : Tensor) : nat := length (rows t).

Definition wf_tensor (t : Tensor) : Prop :=
  Forall (fun r => length r = ncols t) (rows t).

Definition map_tensor (f : T -> T) (t : Tensor) : Tensor :=
  {| ncols := ncols t; rows := map (map f) (rows t) |}.

Definition zeros (n c : nat) : Tensor :=
  {| ncols := c; rows := repeat (repeat s_zero c) n |}.

Fixpoint map2 {A B C} (f : A -> B -> C) (l1 : list A) (l2 : list B) : list C :=
  match l1, l2 with
  | a :: l1', b :: l2' => f a b :: map2 f l1' l2'
  | _, _ => []
  end.

(** Broadcasting of one dimension: equal, or one of them is 1. *)
Definition broadcast_dim (a b : nat) : option nat :=
  if a =? b then Some a
  else if a =? 1 then Some b
  else if b =? 1 then Some a
  else None.

Definition expand {A} (d : A) (have want : nat) (l : list A) : list A :=
  if have =? want then l else repeat (hd d l) want.

(** [a + b] on tensors, with broadcasting. *)
Definition tensor_add (a b : Tensor) : result Tensor :=
  match broadcast_dim (nrows a) (nrows b), broadcast_dim (ncols a) (ncols b) with
  | Some n, Some c =>
      let xa := expand [] (nrows a) n (map (expand s_zero (ncols a) c) (rows a)) in
      let xb := expand [] (nrows b) n (map (expand s_zero (ncols b) c) (rows b)) in
      Ok {| ncols := c; rows := map2 (map2 s_add) xa xb |}
  | _, _ => Err RuntimeError
  end.

(** [torch.cat(ts, dim=1)]: an empty list of tensors is refused with
    [ValueError], tensors of different heights with [RuntimeError]. *)
Fixpoint cat_rows (ts : list Tensor) (n : nat) : list (list T) :=
  match ts with
  | [] => repeat [] n
  | t :: ts' => map2 (@app T) (rows t) (cat_rows ts' n)
  end.

Definition cat1 (ts : list Tensor) : result Tensor :=
  match ts with
  | [] => Err ValueError
  | t :: ts' =>
      if forallb (fun u => nrows u =? nrows t) ts'
      then Ok {| ncols := list_sum (map ncols ts); rows := cat_rows ts (nrows t) |}
      else Err RuntimeError
  end.

(** ** [nn.Linear] *)

Record Linear : Type := mkLinear {
  in_features : nat;
  out_features : nat;
  weight : list (list T);        (* out_features rows of in_features entries *)
  bias : option (list T)
}.

Definition dot (x w : list T) : T :=
  fold_right (fun p acc => s_add (s_mul (fst p) (snd p)) acc) s_zero (combine x w).

Definition affine (L : Linear) (x : list T) : list T :=
  match bias L with
  | Some b => map (fun wb => s_add (dot x (fst wb)) (snd wb)) (combine (weight L) b)
  | None => map (dot x) (weight L)
  end.

Definition Linear_forward (L : Linear) (t : Tensor) : result Tensor :=
  if ncols t =? in_features L
  then Ok {| ncols := out_features L; rows := map (affine L) (rows t) |}
  else Err RuntimeError.

(** The values [nn.Linear]'s constructor samples for one layer: entry
    [(j, i)] of the weight, and entry [(j, in_features)] for the bias. *)
Definition Draw : Type := nat -> nat -> T.

Definition tabulate {A} (n : nat) (f : nat -> A) : list A := map f (seq 0 n).

Definition nn_Linear (in_f out_f : nat) (with_bias : bool) (d : Draw) : Linear :=
  {| in_features := in_f;
     out_features := out_f;
     weight := tabulate out_f (fun j => tabulate in_f (fun i => d j i));
     bias := if with_bias then Some (tabulate out_f (fun j => d j in_f)) else None |}.

(** [nn.init.zeros_(L.weight)] and [nn.init.constant_(L.bias, v)]. *)
Definition init_zeros_weight (L : Linear) : Linear :=
  {| in_features := in_features L;
     out_features := out_features L;
     weight := map (map (fun _ => s_zero)) (weight L);
     bias := bias L |}.

Definition init_constant_bias (v : T) (L : Linear) : Linear :=
  {| in_features := in_features L;
     out_features := out_features L;
     weight := weight L;
     bias := option_map (map (fun _ => v)) (bias L) |}.

(** ** Boolean masks and row selection *)

(** [l[mask]] for a boolean mask of the same length. *)
Definition mask_select {A} (l : list A) (m : list bool) : list A :=
  map fst (List.filter (fun p => snd p) (combine l m)).

Definition tensor_mask (t : Tensor) (m : list bool) : result Tensor :=
  if length m =? nrows t
  then Ok {| ncols := ncols t; rows := mask_select (rows t) m |}
  else Err IndexError.

(** [t[index]]: one row of [t] per entry of [index]. *)
Definition index_rows (t : Tensor) (index : list Z) : result Tensor :=
  do rs <- mapM (list_getitem (rows t)) index;
  Ok {| ncols := ncols t; rows := rs |}.

(** A function applied to every row (a per-point transform). *)
Definition map_rows (f : list T -> list T) (t : Tensor) : Tensor :=
  {| ncols := ncols t; rows := map f (rows t) |}.

(** ** [torch_scatter]: reductions of rows grouped by an index *)

Definition index_in_range (index : list Z) (dim_size : nat) : bool :=
  forallb (fun v => (0 <=? v)%Z && (v <? Z.of_nat dim_size)%Z) index.

(** The rows of [src] whose index is [k], in order. *)
Definition group (src : list (list T)) (index : list Z) (k : nat) : list (list T) :=
  map fst (List.filter (fun p => (snd p =? Z.of_nat k)%Z) (combine src index)).

Definition max_rows (c : nat) (g : list (list T)) : list T :=
  match g with
  | [] => repeat s_zero c
  | r :: g' => fold_left (map2 s_max) g' r
  end.

(** [scatter_max(src, index, dim=0, dim_size=dim_size)[0]]: an empty group
    gives a row of zeros.  An index outside [0, dim_size) is outside what
    torch_scatter defines for this reduction; it is a failure here. *)
Definition scatter_max (src : Tensor) (index : list Z) (dim_size : nat) : result Tensor :=
  if negb (length index =? nrows src) then Err RuntimeError
  else if negb (index_in_range index dim_size) then Err IndexError
  else Ok {| ncols := ncols src;
             rows := tabulate dim_size (fun k => max_rows (ncols src) (group (rows src) index k)) |}.

(** [scatter_mean]: the sum of each group, starting from zeros, divided by
    the group's size clamped to at least 1.  The sum is a [scatter_add_],
    which refuses an index outside [0, dim_size) with [RuntimeError]. *)
Definition mean_rows (c : nat) (g : list (list T)) : list T :=
  let total := fold_left (map2 s_add) g (repeat s_zero c) in
  let count := s_of_nat (Nat.max 1 (length g)) in
  map (fun x => s_div x count) total.

Definition scatter_mean (src : Tensor) (index : list Z) (dim_size : nat) : result Tensor :=
  if negb (length index =? nrows src) then Err RuntimeError
  else if negb (index_in_range index dim_size) then Err RuntimeError
  else Ok {| ncols := ncols src;
             rows := tabulate dim_size (fun k => mean_rows (ncols src) (group (rows src) index k)) |}.

(** ** The sparse voxel hierarchy, as this file uses it

    One grid per depth, or [None] where no grid was built.  A grid exposes
    the per-point coordinate transform and voxel lookup, its voxel count,
    its voxel size along each axis, and trilinear sampling of a per-voxel
    feature tensor at query positions. *)

Record Grid : Type := mkGrid {
  world_to_grid : list T -> list T;
  ijk_to_index : list Z -> Z;            (* -1 where there is no active voxel *)
  num_voxels : nat;
  voxel_size : nat -> T;
  sample_trilinear : Tensor -> Tensor -> result Tensor
}.

Record SparseFeatureHierarchy : Type := mkSVH {
  grids : list (option Grid)
}.

(** [range(n)]. *)
Definition range (n : nat) : list Z := map Z.of_nat (seq 0 n).

End Model.

Arguments Tensor T : clear implicits.
Arguments Linear T : clear implicits.
Arguments Draw T : clear implicits.
Arguments Grid T : clear implicits.
Arguments SparseFeatureHierarchy T : clear implicits.

(** ** [ResnetBlockFC] *)

Module ResnetBlockFC.
Section Defs.
Context {T : Type} `{Scalar T}.

Record t : Type := mk {
  size_in : nat;
  size_h : nat;
  size_out : nat;
  fc_0 : Linear T;
  fc_1 : Linear T;
  shortcut : option (Linear T)
}.

(** [__init__]: [rnd k] holds the values sampled for the [k]-th layer that
    is created. *)
Definition init (size_in : nat) (size_out size_h : option nat)
    (rnd : nat -> Draw T) : t :=
  let size_out := match size_out with None => size_in | Some s => s end in
  let size_h := match size_h with None => Nat.min size_in size_out | Some s => s end in
  {| size_in := size_in;
     size_h := size_h;
     size_out := size_out;
     fc_0 := nn_Linear size_in size_h true (rnd 0);
     fc_1 := init_zeros_weight (nn_Linear size_h size_out true (rnd 1));
     shortcut := if size_in =? size_out then None
                 else Some (nn_Linear size_in size_out false (rnd 2)) |}.

Definition forward (blk : t) (x : Tensor T) : result (Tensor T) :=
  do net <- Linear_forward (fc_0 blk) (map_tensor relu x);
  do dx <- Linear_forward (fc_1 blk) (map_tensor relu net);
  do x_s <- match shortcut blk with
            | Some s => Linear_forward s x
            | None => Ok x
            end;
  tensor_add x_s dx.

End Defs.
Arguments t T : clear implicits.
End ResnetBlockFC.

(** ** [PointEncoder] *)

Module PointEncoder.
Section Defs.
Context {T : Type} `{Scalar T}.

Record t : Type := mk {
  c_dim : nat;
  fc_pos : Linear T;
  blocks : list (ResnetBlockFC.t T);
  fc_c : Linear T;
  hidden_dim : nat
}.

Definition init (dim c_dim hidden_dim n_blocks : nat) (rnd : nat -> Draw T) : t :=
  {| c_dim := c_dim;
     fc_pos := nn_Linear dim (2 * hidden_dim) true (rnd 0);
     blocks := tabulate n_blocks (fun k =>
                 ResnetBlockFC.init (2 * hidden_dim) (Some hidden_dim) None
                   (fun j => rnd (1 + 3 * k + j)));
     fc_c := nn_Linear hidden_dim c_dim true (rnd (1 + 3 * n_blocks));
     hidden_dim := hidden_dim |}.

(** Lines 88-95: the voxel index of every point, the coordinate folded
    into the unit cell, and the mask of the points that have a voxel. *)
Definition voxel_ids (grid : Grid T) (pts_xyz : Tensor T) : list Z :=
  map (fun r => ijk_to_index grid (map s_round_int r))
      (rows (map_rows (world_to_grid grid) pts_xyz)).

Definition local_xyz (grid : Grid T) (pts_xyz : Tensor T) : Tensor T :=
  map_tensor (fun x => s_rem (s_add x s_half) s_one)
             (map_rows (world_to_grid grid) pts_xyz).

Definition mask_of (vid : list Z) : list bool :=
  map (fun v => negb (v =? -1)%Z) vid.

(** One pass of the loop over [blocks[1:]]. *)
Definition pool_step (vid : list Z) (num_voxels : nat)
    (pts_feature : Tensor T) (block : ResnetBlockFC.t T) : result (Tensor T) :=
  do pooled <- scatter_max pts_feature vid num_voxels;
  do pooled <- index_rows pooled vid;
  do pts_feature <- cat1 [pts_feature; pooled];
  ResnetBlockFC.forward block pts_feature.

Definition forward (enc : t) (pts_xyz : Tensor T) (pts_feature : option (Tensor T))
    (svh : SparseFeatureHierarchy T) (depth : Z) : result (Tensor T) :=
  do g <- list_getitem (grids svh) depth;
  match g with
  | None => Err AssertionError
  | Some grid =>
      let vid := voxel_ids grid pts_xyz in
      let pts_xyz := local_xyz grid pts_xyz in
      let pts_mask := mask_of vid in
      let vid := mask_select vid pts_mask in
      do pts_xyz <- tensor_mask pts_xyz pts_mask;
      do pts_feature <-
        match pts_feature with
        | None => Linear_forward (fc_pos enc) pts_xyz
        | Some f =>
            do f <- tensor_mask f pts_mask;
            do xf <- cat1 [pts_xyz; f];
            Linear_forward (fc_pos enc) xf
        end;
      match blocks enc with
      | [] => Err IndexError
      | block0 :: rest =>
          do pts_feature <- ResnetBlockFC.forward block0 pts_feature;
          do pts_feature <- foldM (pool_step vid (num_voxels grid)) rest pts_feature;
          do c <- Linear_forward (fc_c enc) pts_feature;
          scatter_mean c vid (num_voxels grid)
      end
  end.

End Defs.
Arguments t T : clear implicits.
End PointEncoder.

(** ** [MultiscalePointDecoder] *)

Module MultiscalePointDecoder.
Section Defs.
Context {T : Type} `{Scalar T}.

Record t : Type := mk {
  c_dim : nat;
  c_each_dim : nat;
  n_blocks : nat;
  multiscale_depths : nat;
  aggregation : string;
  coords_depths : list Z;
  fc_c : list (Linear T);
  fc_p : Linear T;
  blocks : list (ResnetBlockFC.t T);
  fc_out : Linear T;
  out_dim : nat
}.

Definition init (c_each_dim multiscale_depths p_dim out_dim hidden_size n_blocks : nat)
    (aggregation : string) (out_init : option T) (coords_depths : option (list Z))
    (rnd : nat -> Draw T) : result t :=
  do c_dim <-
    (if String.eqb aggregation "cat" then Ok (c_each_dim * multiscale_depths)
     else if String.eqb aggregation "sum" then Ok c_each_dim
     else Err NotImplementedError);
  let coords_depths :=
    match coords_depths with
    | None => range multiscale_depths
    | Some l => l
    end in
  let coords_depths := merge_sort Z.le coords_depths in
  let fc_out := nn_Linear hidden_size out_dim true (rnd (1 + 4 * n_blocks)) in
  Ok {| c_dim := c_dim;
        c_each_dim := c_each_dim;
        n_blocks := n_blocks;
        multiscale_depths := multiscale_depths;
        aggregation := aggregation;
        coords_depths := coords_depths;
        fc_c := tabulate n_blocks (fun k => nn_Linear c_dim hidden_size true (rnd k));
        fc_p := nn_Linear (p_dim * length coords_depths) hidden_size true (rnd n_blocks);
        blocks := tabulate n_blocks (fun k =>
                    ResnetBlockFC.init hidden_size None None
                      (fun j => rnd (1 + n_blocks + 3 * k + j)));
        fc_out := match out_init with
                  | Some v => init_constant_bias v (init_zeros_weight fc_out)
                  | None => fc_out
                  end;
        out_dim := out_dim |}.

(** [(x % vs) / vs - 0.5] for one coordinate. *)
Definition local_coord (x vs : T) : T :=
  s_sub (s_div (s_rem x vs) vs) s_half.

(** [(xyz % vs) / vs - 0.5], with [vs a] the voxel size along axis [a]. *)
Definition pos_encode (vs : nat -> T) (xyz : Tensor T) : Tensor T :=
  {| ncols := ncols xyz;
     rows := map (imap (fun a x => local_coord x (vs a))) (rows xyz) |}.

(** Lines 164-169. *)
Definition pos_feat (xyz : Tensor T) (svh : SparseFeatureHierarchy T) (did : Z)
    : result (Tensor T) :=
  do g <- list_getitem (grids svh) did;
  match g with
  | None => Err AttributeError
  | Some grid => Ok (pos_encode (voxel_size grid) xyz)
  end.

Definition dict_getitem (d : gmap Z (Tensor T)) (k : Z) : result (Tensor T) :=
  match d !! k with
  | Some v => Ok v
  | None => Err KeyError
  end.

(** Lines 171-177: the contribution of one depth. *)
Definition sample_feat (dec : t) (xyz : Tensor T) (svh : SparseFeatureHierarchy T)
    (multiscale_feat : gmap Z (Tensor T)) (did : Z) : result (Tensor T) :=
  do g <- list_getitem (grids svh) did;
  match g with
  | None => Ok (zeros (nrows xyz) (c_each_dim dec))
  | Some grid =>
      do f <- dict_getitem multiscale_feat did;
      sample_trilinear grid xyz f
  end.

(** Python's [sum(ts)]: [0 + ts[0] + ts[1] + ...], where [0 + t] adds the
    scalar 0 to every entry of [t]; [None] stands for the integer 0 that an
    empty list gives. *)
Definition sum_step (acc : option (Tensor T)) (t : Tensor T) : result (option (Tensor T)) :=
  match acc with
  | None => Ok (Some (map_tensor (fun x => s_add x s_zero) t))
  | Some a => do r <- tensor_add a t; Ok (Some r)
  end.

Definition py_sum (ts : list (Tensor T)) : result (option (Tensor T)) :=
  foldM sum_step ts None.

(** Lines 179-182. *)
Definition aggregate (dec : t) (c_feats : list (Tensor T)) : result (option (Tensor T)) :=
  if String.eqb (aggregation dec) "cat"
  then do c <- cat1 c_feats; Ok (Some c)
  else py_sum c_feats.

(** One pass of the loop of lines 185-187. *)
Definition fuse_step (dec : t) (c : option (Tensor T)) (net : Tensor T) (i : Z)
    : result (Tensor T) :=
  do fc <- list_getitem (fc_c dec) i;
  do cc <- match c with
           | Some c => Linear_forward fc c
           | None => Err TypeError
           end;
  do net <- tensor_add net cc;
  do block <- list_getitem (blocks dec) i;
  ResnetBlockFC.forward block net.

Definition forward (dec : t) (xyz : Tensor T) (svh : SparseFeatureHierarchy T)
    (multiscale_feat : gmap Z (Tensor T)) : result (Tensor T) :=
  do p_feats <- mapM (pos_feat xyz svh) (coords_depths dec);
  do p <- cat1 p_feats;
  do c_feats <- mapM (sample_feat dec xyz svh multiscale_feat)
                     (range (multiscale_depths dec));
  do c <- aggregate dec c_feats;
  do net <- Linear_forward (fc_p dec) p;
  do net <- foldM (fuse_step dec c) (range (n_blocks dec)) net;
  Linear_forward (fc_out dec) (map_tensor relu net).

End Defs.
Arguments t T : clear implicits.
End MultiscalePointDecoder.

(** ** Conversion to a 32-bit integer

    [.int()] of an integral value: the value itself when it fits in 32
    bits, and the smallest 32-bit integer otherwise (what the conversion
    instruction of x86 processors leaves for a value out of range). *)

Definition to_int32 (n : Z) : Z :=
  if ((- 2 ^ 31 <=? n) && (n <? 2 ^ 31))%Z then n else (- 2 ^ 31)%Z.

(** ** Exact rational scalars

    Arithmetic without rounding, for the results that do not depend on
    it; [F32] below is the arithmetic of the tensors themselves. *)

Module QcScalar.

Local Open Scope Qc_scope.

Definition half : Qc := Q2Qc (1 # 2).

Definition floor (x : Qc) : Z := Qfloor x.

Definition max (x y : Qc) : Qc := if Qclt_le_dec x y then y else x.

(** [x % y = x - y * floor(x / y)], the sign of the result follows [y].
    The results below use it for [y] other than 0 only. *)
Definition rem (x y : Qc) : Qc := x - y * Qc_of_Z (floor (x / y)).

(** [.round()]: the nearest integer, ties to the even one. *)
Definition rne (x : Qc) : Z :=
  let f := floor x in
  let d := x - Qc_of_Z f in
  if Qclt_le_dec d half then f
  else if Qclt_le_dec half d then (f + 1)%Z
  else if Z.even f then f else (f + 1)%Z.

(** [.round().int()]. *)
Definition round_int (x : Qc) : Z := to_int32 (rne x).

#[global] Instance scalar : Scalar Qc := {|
  s_zero := 0;
  s_one := 1;
  s_half := half;
  s_add := Qcplus;
  s_sub := Qcminus;
  s_mul := Qcmult;
  s_div := Qcdiv;
  s_max := max;
  s_rem := rem;
  s_round_int := round_int
|}.

End QcScalar.

(** ** Single-precision floating-point scalars

    A float32 value is a rational, an infinity or NaN; the sign of a zero
    is not represented.  Every operation is the exact one followed by
    rounding to the nearest value of the format, ties to the even
    significand: 24 significant bits, exponents of normal numbers from
    -126 to 127, subnormal numbers below, overflow to infinity. *)

Module F32.

Local Open Scope Qc_scope.

Inductive t : Type :=
| Fin (q : Qc)
| Inf (neg : bool)
| NaN.

Definition prec : Z := 24.
Definition emin : Z := -126.
Definition emax : Z := 128.

Definition pow2 (e : Z) : Qc := Q2Qc (2 ^ e)%Q.

(** [floor (log2 q)] for [q] above 0. *)
Definition ilog2 (q : Qc) : Z :=
  let d := (Z.log2 (Qnum q) - Z.log2 (Zpos (Qden q)))%Z in
  if Qclt_le_dec q (pow2 d) then (d - 1)%Z else d.

(** The exponent of the unit in the last place at [q]. *)
Definition qexp (q : Qc) : Z := (Z.max (ilog2 (Qcabs.Qcabs q)) emin - (prec - 1))%Z.

(** The nearest multiple of the unit in the last place, ties to even. *)
Definition round_fin (q : Qc) : Qc :=
  let u := pow2 (qexp q) in Qc_of_Z (QcScalar.rne (q / u)) * u.

Definition negative (q : Qc) : bool := if Qclt_le_dec q 0 then true else false.

Definition is_zero (q : Qc) : bool := if Qc_eq_dec q 0 then true else false.

Definition round (q : Qc) : t :=
  let r := round_fin q in
  if Qclt_le_dec (Qcabs.Qcabs r) (pow2 emax) then Fin r else Inf (negative r).

Definition zero : t := Fin 0.
Definition one : t := Fin 1.
Definition half : t := Fin QcScalar.half.

Definition opp (x : t) : t :=
  match x with
  | Fin q => Fin (- q)
  | Inf neg => Inf (negb neg)
  | NaN => NaN
  end.

Definition add (x y : t) : t :=
  match x, y with
  | Fin a, Fin b => round (a + b)
  | Fin _, Inf n => Inf n
  | Inf n, Fin _ => Inf n
  | Inf n, Inf n' => if Bool.eqb n n' then Inf n else NaN
  | _, _ => NaN
  end.

Definition sub (x y : t) : t := add x (opp y).

Definition mul (x y : t) : t :=
  match x, y with
  | Fin a, Fin b => round (a * b)
  | Fin a, Inf n => if is_zero a then NaN else Inf (xorb (negative a) n)
  | Inf n, Fin b => if is_zero b then NaN else Inf (xorb n (negative b))
  | Inf n, Inf n' => Inf (xorb n n')
  | _, _ => NaN
  end.

(** A zero divisor counts as positive. *)
Definition div (x y : t) : t :=
  match x, y with
  | Fin a, Fin b =>
      if is_zero b then (if is_zero a then NaN else Inf (negative a))
      else round (a / b)
  | Fin _, Inf _ => Fin 0
  | Inf n, Fin b => Inf (xorb n (negative b))
  | _, _ => NaN
  end.

(** [x < y] and [x <= y]: false when an operand is NaN. *)
Definition ltb (x y : t) : bool :=
  match x, y with
  | Fin a, Fin b => if Qclt_le_dec a b then true else false
  | Fin _, Inf n => negb n
  | Inf n, Fin _ => n
  | Inf n, Inf n' => n && negb n'
  | _, _ => false
  end.

Definition leb (x y : t) : bool :=
  match x, y with
  | Fin a, Fin b => if Qclt_le_dec b a then false else true
  | Fin _, Inf n => negb n
  | Inf n, Fin _ => n
  | Inf n, Inf n' => n || negb n'
  | _, _ => false
  end.

(** The maximum, NaN when an operand is NaN. *)
Definition max (x y : t) : t :=
  match x, y with
  | NaN, _ => NaN
  | _, NaN => NaN
  | _, _ => if ltb x y then y else x
  end.

(** Rounding towards zero. *)
Definition trunc (q : Qc) : Z :=
  if Qclt_le_dec q 0 then (- Qfloor (- q))%Z else Qfloor q.

(** C's [fmod]: the remainder of the division truncated towards zero; it
    has the sign of [x] and is computed without rounding. *)
Definition fmod (x y : t) : t :=
  match x, y with
  | Fin a, Fin b => if is_zero b then NaN else Fin (a - b * Qc_of_Z (trunc (a / b)))
  | Fin a, Inf _ => Fin a
  | _, _ => NaN
  end.

(** [torch.remainder]: [fmod(x, y)], to which [y] is added when it is not
    zero and its sign differs from the sign of [y]. *)
Definition rem (x y : t) : t :=
  let m := fmod x y in
  if negb (match m with Fin q => is_zero q | _ => false end)
     && negb (Bool.eqb (ltb y zero) (ltb m zero))
  then add m y else m.

(** [.round().int()]: infinities and NaN are outside the range of a 32-bit
    integer. *)
Definition round_int (x : t) : Z :=
  match x with
  | Fin q => to_int32 (QcScalar.rne q)
  | _ => (- 2 ^ 31)%Z
  end.

#[global] Instance scalar : Scalar t := {|
  s_zero := zero;
  s_one := one;
  s_half := half;
  s_add := add;
  s_sub := sub;
  s_mul := mul;
  s_div := div;
  s_max := max;
  s_rem := rem;
  s_round_int := round_int
|}.

(** The float32 value nearest to a rational. *)
Definition of_Q (q : Q) : t := round (Q2Qc q).

(** The rationals that are float32 values. *)
Definition is_f32 (q : Qc) : Prop := round q = Fin q.

Definition is_f32b (q : Qc) : bool :=
  match round q with
  | Fin r => Qc_eq_bool r q
  | _ => false
  end.

End F32.

(** * Vocabulary of the statements *)

Section Vocabulary.
Context {T : Type} `{Scalar T}.

(** What the shortcut branch makes of one row. *)
Definition shortcut_row (blk : ResnetBlockFC.t T) (r : list T) : list T :=
  match ResnetBlockFC.shortcut blk with
  | Some s => affine s r
  | None => r
  end.

(** The bias that [nn.Linear] sampled for [fc_1]. *)
Definition fc_1_bias (blk : ResnetBlockFC.t T) : list T :=
  match bias (ResnetBlockFC.fc_1 blk) with
  | Some b => b
  | None => []
  end.

(** The shortcut value: [x_s] of lines 50-53. *)
Definition shortcut_value (blk : ResnetBlockFC.t T) (x : Tensor T) : result (Tensor T) :=
  match ResnetBlockFC.shortcut blk with
  | Some s => Linear_forward s x
  | None => Ok x
  end.



(** The shape of a tensor. *)
Definition has_shape (t : Tensor T) (n c : nat) : Prop :=
  nrows t = n /\ ncols t = c.

(** The layers of a block fit together, from width [i] to width [o]. *)
Definition block_ok (i o : nat) (blk : ResnetBlockFC.t T) : Prop :=
  in_features (ResnetBlockFC.fc_0 blk) = i /\
  out_features (ResnetBlockFC.fc_0 blk) = in_features (ResnetBlockFC.fc_1 blk) /\
  out_features (ResnetBlockFC.fc_1 blk) = o /\
  match ResnetBlockFC.shortcut blk with
  | Some s => in_features s = i /\ out_features s = o
  | None => i = o
  end.

(** The layers of a decoder fit together: positional width [p_dim] per
    depth, hidden width [hidden]. *)
Definition decoder_ok (p_dim hidden : nat) (dec : MultiscalePointDecoder.t T) : Prop :=
  let c_dim := MultiscalePointDecoder.c_dim dec in
  let c_each := MultiscalePointDecoder.c_each_dim dec in
  let D := MultiscalePointDecoder.multiscale_depths dec in
  let nb := MultiscalePointDecoder.n_blocks dec in
  ((MultiscalePointDecoder.aggregation dec = "cat"%string /\ c_dim = c_each * D) \/
   (MultiscalePointDecoder.aggregation dec = "sum"%string /\ c_dim = c_each)) /\
  in_features (MultiscalePointDecoder.fc_p dec) =
    p_dim * length (MultiscalePointDecoder.coords_depths dec) /\
  out_features (MultiscalePointDecoder.fc_p dec) = hidden /\
  length (MultiscalePointDecoder.fc_c dec) = nb /\
  Forall (fun L => in_features L = c_dim /\ out_features L = hidden)
         (MultiscalePointDecoder.fc_c dec) /\
  length (MultiscalePointDecoder.blocks dec) = nb /\
  Forall (block_ok hidden hidden) (MultiscalePointDecoder.blocks dec) /\
  in_features (MultiscalePointDecoder.fc_out dec) = hidden.

(** Every depth used for the positional encoding has a grid. *)
Definition coords_grids_present (dec : MultiscalePointDecoder.t T)
    (svh : SparseFeatureHierarchy T) : Prop :=
  Forall (fun did => exists g, list_getitem (grids svh) did = Ok (Some g))
         (MultiscalePointDecoder.coords_depths dec).

(** Entry [a] of row [i] of a tensor. *)
Definition entry (t : Tensor T) (i a : nat) : option T :=
  match rows t !! i with
  | Some r => r !! a
  | None => None
  end.

(** The positions moved by [d a] along every axis [a]: [xyz + d]. *)
Definition translate (d : nat -> T) (xyz : Tensor T) : Tensor T :=
  {| ncols := ncols xyz;
     rows := map (imap (fun a x => s_add x (d a))) (rows xyz) |}.

(** The position in a list of length [n] that the Python index [i] refers
    to: negative indices count from the end. *)
Definition position (n : nat) (i : Z) : Z :=
  if (i <? 0)%Z then (i + Z.of_nat n)%Z else i.

(** No entry of [coords_depths] refers to position [k] of the hierarchy. *)
Definition coords_avoid (dec : MultiscalePointDecoder.t T)
    (svh : SparseFeatureHierarchy T) (k : nat) : Prop :=
  Forall (fun did => position (length (grids svh)) did <> Z.of_nat k)
         (MultiscalePointDecoder.coords_depths dec).

(** Every depth below [multiscale_depths] is in the hierarchy and, where it
    has a grid, has features that the grid samples to one row of width
    [c_each_dim] per query point. *)
Definition samples_ok (dec : MultiscalePointDecoder.t T) (xyz : Tensor T)
    (svh : SparseFeatureHierarchy T) (multiscale_feat : gmap Z (Tensor T)) : Prop :=
  Forall (fun did =>
            match list_getitem (grids svh) did with
            | Ok None => True
            | Ok (Some g) =>
                exists F t, multiscale_feat !! did = Some F /\
                            sample_trilinear g xyz F = Ok t /\
                            has_shape t (nrows xyz) (MultiscalePointDecoder.c_each_dim dec)
            | Err _ => False
            end)
         (range (MultiscalePointDecoder.multiscale_depths dec)).

(** The tensor without its row [i]. *)
Definition drop_row (i : nat) (t : Tensor T) : Tensor T :=
  {| ncols := ncols t; rows := delete i (rows t) |}.

(** The voxel indices of the points that pass the mask of line 94. *)
Definition surviving_ids (grid : Grid T) (pts_xyz : Tensor T) : list Z :=
  let vid := PointEncoder.voxel_ids grid pts_xyz in
  mask_select vid (PointEncoder.mask_of vid).

(** The layers of an encoder fit together, for input width [dim]. *)
Definition encoder_ok (dim : nat) (enc : PointEncoder.t T) : Prop :=
  let h := PointEncoder.hidden_dim enc in
  in_features (PointEncoder.fc_pos enc) = dim /\
  out_features (PointEncoder.fc_pos enc) = 2 * h /\
  PointEncoder.blocks enc <> [] /\
  Forall (block_ok (2 * h) h) (PointEncoder.blocks enc) /\
  in_features (PointEncoder.fc_c enc) = h /\
  out_features (PointEncoder.fc_c enc) = PointEncoder.c_dim enc /\
  length (weight (PointEncoder.fc_c enc)) = PointEncoder.c_dim enc /\
  match bias (PointEncoder.fc_c enc) with
  | Some b => length b = PointEncoder.c_dim enc
  | None => True
  end.

(** The point features, when given, are one row per point, and positions
    and features together have the width the encoder was built for. *)
Definition encoder_input_ok (dim : nat) (pts_xyz : Tensor T)
    (pts_feature : option (Tensor T)) : Prop :=
  match pts_feature with
  | Some f => nrows f = nrows pts_xyz /\ ncols pts_xyz + ncols f = dim
  | None => ncols pts_xyz = dim
  end.

(** The grid's lookup answers -1 or a row index below [num_voxels]. *)
Definition grid_index_ok (grid : Grid T) : Prop :=
  forall ijk, ijk_to_index grid ijk = (-1)%Z \/
              (0 <= ijk_to_index grid ijk < Z.of_nat (num_voxels grid))%Z.

End Vocabulary.

(** Every coordinate of [xyz] and the voxel size along its axis are finite
    and their sum is a float32 value: moving the queries by the voxel size
    involves no rounding. *)
Definition exact_shift (vs : nat -> F32.t) (xyz : Tensor F32.t) : Prop :=
  forall i a x, entry xyz i a = Some x ->
    exists q s, x = F32.Fin q /\ vs a = F32.Fin s /\ F32.is_f32 (Qcplus q s).

(** * Vocabulary of the further statements *)

(** Addition and maximum do not depend on the order of their operands. *)
Class CommScalar (T : Type) `{Scalar T} : Prop := {
  s_add_comm : forall x y, s_add x y = s_add y x;
  s_add_assoc : forall x y z, s_add (s_add x y) z = s_add x (s_add y z);
  s_max_comm : forall x y, s_max x y = s_max y x;
  s_max_assoc : forall x y z, s_max (s_max x y) z = s_max x (s_max y z)
}.


Section Vocabulary_extra.
Context {T : Type} `{Scalar T}.

(** [(x + 0.5) % 1] of line 93, for one coordinate. *)
Definition cell_coord (x : T) : T := s_rem (s_add x s_half) s_one.




(** What a block makes of one row of an input of width [c]. *)
Definition block_row (blk : ResnetBlockFC.t T) (c : nat) (r : list T) : list T :=
  let dx := affine (ResnetBlockFC.fc_1 blk)
              (map relu (affine (ResnetBlockFC.fc_0 blk) (map relu r))) in
  let cs := match ResnetBlockFC.shortcut blk with
            | Some s => out_features s
            | None => c
            end in
  let cd := out_features (ResnetBlockFC.fc_1 blk) in
  match broadcast_dim cs cd with
  | Some c' => map2 s_add (expand s_zero cs c' (shortcut_row blk r)) (expand s_zero cd c' dx)
  | None => []
  end.






End Vocabulary_extra.

(** ** Concrete inputs on which the results below are run *)

Module Examples.
Import QcScalar.
Local Open Scope Qc_scope.

(** Every sampled parameter is 1/2. *)
Definition draws_half : nat -> Draw Qc := fun _ _ _ => half.

(** One point, one coordinate, at the origin. *)
Definition x_origin : Tensor Qc := {| ncols := 1; rows := [[0]] |}.

Definition block_1_1 : ResnetBlockFC.t Qc := ResnetBlockFC.init 1 None None draws_half.
Definition block_1_2 : ResnetBlockFC.t Qc := ResnetBlockFC.init 1 (Some 2%nat) None draws_half.

(** A grid of unit voxels at the origin with two active voxels, (0,0,0)
    and (1,0,0); sampling gives every query the code of voxel 0. *)
Definition lookup2 (ijk : list Z) : Z :=
  match ijk with
  | [i; j; k] =>
      if (i =? 0)%Z && (j =? 0)%Z && (k =? 0)%Z then 0%Z
      else if (i =? 1)%Z && (j =? 0)%Z && (k =? 0)%Z then 1%Z
      else (-1)%Z
  | _ => (-1)%Z
  end.

Definition grid2 : Grid Qc :=
  {| world_to_grid := fun r => r;
     ijk_to_index := lookup2;
     num_voxels := 2;
     voxel_size := fun _ => 1;
     sample_trilinear := fun xyz F =>
       Ok {| ncols := ncols F;
             rows := map (fun _ => hd (repeat 0 (ncols F)) (rows F)) (rows xyz) |} |}.

(** A grid whose sampling gives zeros of width 1. *)
Definition grid_zero : Grid Qc :=
  {| world_to_grid := fun r => r;
     ijk_to_index := lookup2;
     num_voxels := 2;
     voxel_size := fun _ => 1;
     sample_trilinear := fun xyz _ => Ok (zeros (nrows xyz) 1) |}.

(** A grid whose sampling gives ones of width 1. *)
Definition grid_one : Grid Qc :=
  {| world_to_grid := fun r => r;
     ijk_to_index := lookup2;
     num_voxels := 2;
     voxel_size := fun _ => 1;
     sample_trilinear := fun xyz _ =>
       Ok {| ncols := 1; rows := repeat [1] (nrows xyz) |} |}.

(** Depth 0 has a grid, depth 1 has none. *)
Definition svh2 : SparseFeatureHierarchy Qc := {| grids := [Some grid2; None] |}.

(** Three points: in voxel 0, outside every active voxel, in voxel 0. *)
Definition pts3 : Tensor Qc :=
  {| ncols := 3;
     rows := [[0; 0; 0]; [Q2Qc 5; Q2Qc 5; Q2Qc 5]; [Q2Qc (1 # 4); 0; 0]] |}.

Definition encoder2 : PointEncoder.t Qc := PointEncoder.init 3 2 1 2 draws_half.

(** One feature per point, and an encoder for positions with features. *)
Definition feats3 : Tensor Qc :=
  {| ncols := 1; rows := [[1]; [Q2Qc 2]; [Q2Qc 3]] |}.

Definition encoder2f : PointEncoder.t Qc := PointEncoder.init 4 2 1 2 draws_half.

(** Codes of width 1 for the two voxels of depth 0. *)
Definition feat2 : gmap Z (Tensor Qc) :=
  {[ 0%Z := {| ncols := 1; rows := [[1]; [Q2Qc 2]] |} ]}.

(** Decoders over two depths that take their positional feature from
    depth 0 only, without blocks. *)
Definition decoder_agg (aggregation : string) (c_dim : nat) : MultiscalePointDecoder.t Qc :=
  {| MultiscalePointDecoder.c_dim := c_dim;
     MultiscalePointDecoder.c_each_dim := 1;
     MultiscalePointDecoder.n_blocks := 0;
     MultiscalePointDecoder.multiscale_depths := 2;
     MultiscalePointDecoder.aggregation := aggregation;
     MultiscalePointDecoder.coords_depths := [0%Z];
     MultiscalePointDecoder.fc_c := [];
     MultiscalePointDecoder.fc_p := nn_Linear 3 1 true (draws_half 0);
     MultiscalePointDecoder.blocks := [];
     MultiscalePointDecoder.fc_out := nn_Linear 1 1 true (draws_half 1);
     MultiscalePointDecoder.out_dim := 1 |}.

Definition decoder_cat : MultiscalePointDecoder.t Qc := decoder_agg "cat" 2.

(** The same, with a positional feature from both depths. *)
Definition decoder_both : MultiscalePointDecoder.t Qc :=
  {| MultiscalePointDecoder.c_dim := 2;
     MultiscalePointDecoder.c_each_dim := 1;
     MultiscalePointDecoder.n_blocks := 0;
     MultiscalePointDecoder.multiscale_depths := 2;
     MultiscalePointDecoder.aggregation := "cat";
     MultiscalePointDecoder.coords_depths := [0%Z; 1%Z];
     MultiscalePointDecoder.fc_c := [];
     MultiscalePointDecoder.fc_p := nn_Linear 6 1 true (draws_half 0);
     MultiscalePointDecoder.blocks := [];
     MultiscalePointDecoder.fc_out := nn_Linear 1 1 true (draws_half 1);
     MultiscalePointDecoder.out_dim := 1 |}.

(** Single-precision inputs: a hierarchy with one grid of unit voxels, a
    query 2^-30 below the origin, and a query at the float32 value nearest
    to 1/10. *)
Definition grid_unit : Grid F32.t :=
  {| world_to_grid := fun r => r;
     ijk_to_index := lookup2;
     num_voxels := 2;
     voxel_size := fun _ => F32.one;
     sample_trilinear := fun xyz F => Ok F |}.

Definition svh_unit : SparseFeatureHierarchy F32.t := {| grids := [Some grid_unit] |}.

Definition x_tiny : Tensor F32.t :=
  {| ncols := 1; rows := [[F32.Fin (- F32.pow2 (-30))]] |}.

Definition x_tenth : Tensor F32.t :=
  {| ncols := 1; rows := [[F32.of_Q (1 # 10)]] |}.

(** A query 1/4 below the origin. *)
Definition x_below : Tensor F32.t :=
  {| ncols := 1; rows := [[F32.Fin (Q2Qc (-1 # 4))]] |}.

End Examples.

(** ** The single-precision model against the Standard Library

    The Standard Library specifies IEEE 754 arithmetic on significand and
    exponent ([SpecFloat]); at 24 bits of precision and the exponent bound
    128 it is the binary32 format.  [agree] compares one of its operations
    with the one of [F32] on all pairs of the operands [operands], given
    as significand and exponent. *)

Module F32_SpecFloat.
Import SpecFloat.

Definition binary32 (m e : Z) : spec_float := binary_normalize 24 128 m e false.

Definition f32 (m e : Z) : F32.t := F32.round (Q2Qc (inject_Z m * 2 ^ e)%Q).

Definition value (x : spec_float) : option Q :=
  match x with
  | S754_zero _ => Some 0%Q
  | S754_finite s m e => Some ((if s then -1 else 1) * inject_Z (Zpos m) * 2 ^ e)%Q
  | _ => None
  end.

Definition value_f32 (x : F32.t) : option Q :=
  match x with
  | F32.Fin q => Some (this q)
  | _ => None
  end.

Definition same (a b : option Q) : bool :=
  match a, b with
  | Some x, Some y => Qeq_bool x y
  | None, None => true
  | _, _ => false
  end.

Definition operands : list (Z * Z) :=
  [(1, 0); (3, -1); (13421773, -27); (-5, -3); (16777215, 104); (1, -149);
   (3, -149); (8388609, -149); (-16777215, -30); (7, 20); (12345678, -150);
   (1, 127); (-1, -30); (11184811, -25); (123, 100)]%Z.

Definition agree (op : spec_float -> spec_float -> spec_float)
    (op32 : F32.t -> F32.t -> F32.t) : bool :=
  forallb (fun p =>
             same (value (op (binary32 (fst (fst p)) (snd (fst p)))
                             (binary32 (fst (snd p)) (snd (snd p)))))
                  (value_f32 (op32 (f32 (fst (fst p)) (snd (fst p)))
                                   (f32 (fst (snd p)) (snd (snd p))))))
          (list_prod operands operands).

End F32_SpecFloat.

(** ** Further concrete inputs *)

Module Examples_extra.
Import QcScalar Examples.
Local Open Scope Qc_scope.

(** Two rows of width 1. *)
Definition x_two : Tensor Qc := {| ncols := 1; rows := [[1]; [Q2Qc (-3)]] |}.

(** Features for two points only. *)
Definition feats_short : Tensor Qc := {| ncols := 1; rows := [[1]; [Q2Qc 2]] |}.



(** A decoder over no depths at all, with one block. *)
Definition decoder_no_depths : MultiscalePointDecoder.t Qc :=
  {| MultiscalePointDecoder.c_dim := 1;
     MultiscalePointDecoder.c_each_dim := 1;
     MultiscalePointDecoder.n_blocks := 1;
     MultiscalePointDecoder.multiscale_depths := 0;
     MultiscalePointDecoder.aggregation := "sum";
     MultiscalePointDecoder.coords_depths := [0%Z];
     MultiscalePointDecoder.fc_c := [nn_Linear 1 1 true (draws_half 0)];
     MultiscalePointDecoder.fc_p := nn_Linear 3 1 true (draws_half 1);
     MultiscalePointDecoder.blocks := [ResnetBlockFC.init 1 None None draws_half];
     MultiscalePointDecoder.fc_out := nn_Linear 1 1 true (draws_half 2);
     MultiscalePointDecoder.out_dim := 1 |}.

(** Features for depth 0 as in [feat2], and some for depths 1 and 7. *)
Definition feat2_more : gmap Z (Tensor Qc) :=
  <[7%Z := zeros 1 1]> (<[1%Z := zeros 2 1]> feat2).

(** Two single-precision points, at the grid coordinates (5/2, 1/4, 0) and
    (3/2, 0, 0). *)
Definition pts_tie : Tensor F32.t :=
  {| ncols := 3;
     rows := [[F32.Fin (Qc_of_Z 2 + half); F32.Fin (Q2Qc (1 # 4)); F32.Fin 0];
              [F32.Fin (Qc_of_Z 1 + half); F32.Fin 0; F32.Fin 0]] |}.

End Examples_extra.

(** * Properties *)

(** ** The error monad *)

Lemma bind_Ok_inv {A B} (m : result A) (k : A -> result B) (b : B) :
  bind m k = Ok b -> exists a, m = Ok a /\ k a = Ok b.
Proof. destruct m as [a|e]; simpl; [eauto | discriminate]. Qed.

Lemma bind_Err_l {A B} (m : result A) (k : A -> result B) :
  is_err m -> is_err (bind m k).
Proof. destruct m; simpl; tauto. Qed.

Ltac inv_bind H :=
  let a := fresh "a" in
  let Ha := fresh "Ha" in
  apply bind_Ok_inv in H; destruct H as (a & Ha & H).

Lemma mapM_ext {A B} (f g : A -> result B) (l : list A) :
  (forall x, In x l -> f x = g x) -> mapM f l = mapM g l.
Proof.
  induction l as [|x l IH]; intros E; simpl; [reflexivity|].
  rewrite (E x) by (left; reflexivity).
  rewrite IH by (intros y Hy; apply E; right; exact Hy).
  reflexivity.
Qed.

Lemma mapM_Ok_length {A B} (f : A -> result B) (l : list A) (ys : list B) :
  mapM f l = Ok ys -> length ys = length l.
Proof.
  revert ys; induction l as [|x l IH]; intros ys E; simpl in E.
  - injection E as <-. reflexivity.
  - inv_bind E. inv_bind E. injection E as <-. simpl. f_equal. eauto.
Qed.

Lemma mapM_Ok_Forall2 {A B} (f : A -> result B) (l : list A) (ys : list B) :
  mapM f l = Ok ys -> Forall2 (fun x y => f x = Ok y) l ys.
Proof.
  revert ys; induction l as [|x l IH]; intros ys E; simpl in E.
  - injection E as <-. constructor.
  - inv_bind E. inv_bind E. injection E as <-. constructor; eauto.
Qed.

Lemma mapM_Err_In {A B} (f : A -> result B) (l : list A) (x : A) :
  In x l -> is_err (f x) -> is_err (mapM f l).
Proof.
  induction l as [|y l IH]; intros Hin Hx; simpl; [destruct Hin|].
  destruct (f y) as [b|e] eqn:Ey; simpl; [|exact I].
  destruct Hin as [->|Hin].
  - rewrite Ey in Hx. destruct Hx.
  - specialize (IH Hin Hx). destruct (mapM f l); simpl; [destruct IH | exact I].
Qed.

(** ** Lists *)

Lemma map2_map_same {A B C D} (f : B -> C -> D) (g : A -> B) (h : A -> C) (l : list A) :
  map2 f (map g l) (map h l) = map (fun a => f (g a) (h a)) l.
Proof. induction l; simpl; congruence. Qed.

Lemma map_const_repeat {A B} (b : B) (l : list A) :
  map (fun _ => b) l = repeat b (length l).
Proof. induction l; simpl; congruence. Qed.

Lemma tabulate_length {A} (n : nat) (f : nat -> A) : length (tabulate n f) = n.
Proof. unfold tabulate. rewrite length_map, length_seq. reflexivity. Qed.

Lemma expand_same {A} (d : A) (n : nat) (l : list A) : expand d n n l = l.
Proof. unfold expand. rewrite Nat.eqb_refl. reflexivity. Qed.

Lemma broadcast_dim_same (n : nat) : broadcast_dim n n = Some n.
Proof. unfold broadcast_dim. rewrite Nat.eqb_refl. reflexivity. Qed.

Section Layers.
Context {T : Type} `{Scalar T}.

(** Adding two tensors of one shape is the element-wise sum. *)
Lemma tensor_add_same_shape (a b : Tensor T) :
  nrows a = nrows b -> ncols a = ncols b ->
  tensor_add a b = Ok {| ncols := ncols a; rows := map2 (map2 s_add) (rows a) (rows b) |}.
Proof.
  intros Hr Hc. unfold tensor_add. rewrite <- Hr, <- Hc, !broadcast_dim_same.
  rewrite !expand_same.
  do 2 f_equal.
  rewrite <- (map_id (rows a)) at 2. rewrite <- (map_id (rows b)) at 2.
  f_equal; apply map_ext; intros r; apply expand_same.
Qed.

(** A layer whose weight is all zeros returns its bias, whatever it is fed. *)
Lemma dot_zero_weight `{!ExactScalar T} (x : list T) (w : list T) :
  dot x (map (fun _ => s_zero) w) = s_zero.
Proof.
  unfold dot. revert w; induction x as [|a x IH]; intros [|b w]; simpl; try reflexivity.
  rewrite IH, s_mul_0_r, s_add_0_l. reflexivity.
Qed.

Lemma affine_zero_weight `{!ExactScalar T} (L : Linear T) (b x : list T) :
  bias L = Some b -> length (weight L) = length b ->
  affine (init_zeros_weight L) x = b.
Proof.
  intros Hb Hlen. unfold affine; simpl. rewrite Hb.
  clear Hb. revert b Hlen. induction (weight L) as [|w ws IH]; intros [|b0 b] Hlen;
    simpl in *; try discriminate; try reflexivity.
  rewrite dot_zero_weight, s_add_0_l. f_equal. apply IH. lia.
Qed.

End Layers.

(** ** C1: a fresh [ResnetBlockFC] *)

Section ResnetBlockFC_props.
Context {T : Type} `{Scalar T}.
Import ResnetBlockFC.

(** The forward pass of any block whose second layer returns the row [b]
    on every input. *)
Lemma forward_constant_residual (blk : ResnetBlockFC.t T) (x : Tensor T) (b : list T) :
  ncols x = in_features (fc_0 blk) ->
  out_features (fc_0 blk) = in_features (fc_1 blk) ->
  (forall r, affine (fc_1 blk) r = b) ->
  match shortcut blk with
  | Some s => in_features s = ncols x /\ out_features s = out_features (fc_1 blk)
  | None => ncols x = out_features (fc_1 blk)
  end ->
  forward blk x =
    Ok {| ncols := out_features (fc_1 blk);
          rows := map (fun r => map2 s_add (shortcut_row blk r) b) (rows x) |}.
Proof.
  intros H0 H1 Hb Hs. unfold forward, shortcut_row.
  unfold Linear_forward at 1. cbn [ncols map_tensor]. rewrite H0, Nat.eqb_refl.
  cbn [bind].
  unfold Linear_forward at 1. cbn [ncols map_tensor]. rewrite H1, Nat.eqb_refl.
  cbn [bind].
  destruct (shortcut blk) as [s|].
  - destruct Hs as [Hi Ho]. unfold Linear_forward. rewrite Hi, Nat.eqb_refl.
    cbn [bind]. rewrite tensor_add_same_shape.
    + cbn [ncols rows]. rewrite Ho. do 2 f_equal. unfold map_tensor; cbn [rows].
      rewrite !map_map, map2_map_same. apply map_ext. intros r. rewrite Hb. reflexivity.
    + unfold nrows, map_tensor; cbn [rows]. rewrite !length_map. reflexivity.
    + cbn [ncols]. exact Ho.
  - cbn [bind]. rewrite tensor_add_same_shape.
    + cbn [ncols rows]. rewrite Hs. do 2 f_equal. unfold map_tensor; cbn [rows].
      rewrite !map_map. rewrite <- (map_id (rows x)) at 1.
      rewrite map2_map_same. apply map_ext. intros r. rewrite Hb. reflexivity.
    + unfold nrows, map_tensor; cbn [rows]. rewrite !length_map. reflexivity.
    + cbn [ncols]. exact Hs.
Qed.

(** C1, as the code has it: a freshly constructed block maps every row [r]
    of its input to [shortcut(r) + fc_1.bias], the shortcut being the
    identity when [size_in = size_out] and the bias-free projection
    otherwise.  The constructor zeroes the weight of [fc_1] and leaves its
    bias as sampled, so the residual branch contributes that bias and
    nothing that depends on the input. *)
Theorem fresh_block_output `{!ExactScalar T}
    (n_in : nat) (n_out n_h : option nat) (rnd : nat -> Draw T) (x : Tensor T) :
  ncols x = n_in ->
  let blk := init n_in n_out n_h rnd in
  forward blk x =
    Ok {| ncols := size_out blk;
          rows := map (fun r => map2 s_add (shortcut_row blk r) (fc_1_bias blk)) (rows x) |}.
Proof.
  intros Hx blk.
  apply (forward_constant_residual blk x (fc_1_bias blk)).
  - exact Hx.
  - reflexivity.
  - intros r. unfold blk, init, fc_1_bias; cbn [fc_1].
    apply affine_zero_weight.
    + reflexivity.
    + unfold init_zeros_weight, nn_Linear; cbn [bias weight].
      rewrite !tabulate_length. reflexivity.
  - unfold blk, init; cbn [shortcut fc_1 init_zeros_weight nn_Linear out_features].
    destruct (n_in =? _) eqn:E.
    + apply Nat.eqb_eq in E. congruence.
    + cbn [in_features out_features]. split; [symmetry; exact Hx | reflexivity].
Qed.

End ResnetBlockFC_props.

(** ** The rationals obey the laws of exact arithmetic *)

#[global] Instance Qc_exact : ExactScalar Qc.
Proof.
  split; simpl; intros.
  - apply Qcplus_0_l.
  - apply Qcplus_0_r.
  - apply Qcmult_0_r.
  - apply Qcmult_1_l.
  - apply Qcmult_plus_distr_l.
  - apply Qc_is_canon. reflexivity.
Qed.

(** C1 at a concrete block and input. *)
Lemma fresh_block_output_witness :
  ncols Examples.x_origin = 1 /\
  ResnetBlockFC.forward Examples.block_1_1 Examples.x_origin =
    Ok {| ncols := ResnetBlockFC.size_out Examples.block_1_1;
          rows := map (fun r => map2 s_add (shortcut_row Examples.block_1_1 r)
                                     (fc_1_bias Examples.block_1_1))
                      (rows Examples.x_origin) |}.
Proof.
  split; [reflexivity|].
  exact (fresh_block_output 1 None None Examples.draws_half Examples.x_origin eq_refl).
Defined.

(** C1 as the specification words it fails: a fresh block does not return
    the shortcut value, neither with the identity shortcut (sizes 1 and 1)
    nor with the projection (sizes 1 and 2); the sampled bias of [fc_1]
    is added to it. *)
Lemma fresh_block_not_shortcut :
  ResnetBlockFC.forward Examples.block_1_1 Examples.x_origin
    <> shortcut_value Examples.block_1_1 Examples.x_origin /\
  ResnetBlockFC.forward Examples.block_1_2 Examples.x_origin
    <> shortcut_value Examples.block_1_2 Examples.x_origin.
Proof.
  split; intros E; vm_compute in E; discriminate E.
Qed.

(** ** C3: the aggregation mode is checked by the constructor *)

Section Decoder_init.
Context {T : Type} `{Scalar T}.
Import MultiscalePointDecoder.

(** C3: the constructor returns a decoder exactly for the modes 'cat' and
    'sum', with [c_dim = c_each_dim * multiscale_depths] for 'cat' and
    [c_dim = c_each_dim] for 'sum'; for every other mode it raises
    [NotImplementedError], so no decoder exists whose forward pass could be
    run. *)
Theorem init_checks_aggregation
    (c_each D p_dim n_out hidden nb : nat) (agg : string)
    (out_init : option T) (coords : option (list Z)) (rnd : nat -> Draw T) :
  match init c_each D p_dim n_out hidden nb agg out_init coords rnd with
  | Ok dec =>
      aggregation dec = agg /\
      ((agg = "cat"%string /\ c_dim dec = c_each * D) \/
       (agg = "sum"%string /\ c_dim dec = c_each))
  | Err e =>
      e = NotImplementedError /\ agg <> "cat"%string /\ agg <> "sum"%string
  end.
Proof.
  unfold init.
  destruct (String.eqb agg "cat") eqn:Ecat.
  - apply String.eqb_eq in Ecat. cbn [bind c_dim aggregation]. auto.
  - destruct (String.eqb agg "sum") eqn:Esum.
    + apply String.eqb_eq in Esum. cbn [bind c_dim aggregation]. auto.
    + apply String.eqb_neq in Ecat, Esum. cbn [bind]. auto.
Qed.

(** The constructor keeps the members of [coords_depths] (it sorts them),
    and takes all of [range(multiscale_depths)] when none are given. *)
Lemma init_coords_depths
    (c_each D p_dim n_out hidden nb : nat) (agg : string)
    (out_init : option T) (coords : option (list Z)) (rnd : nat -> Draw T)
    (dec : MultiscalePointDecoder.t T) (did : Z) :
  init c_each D p_dim n_out hidden nb agg out_init coords rnd = Ok dec ->
  In did (coords_depths dec) <->
  In did (match coords with None => range D | Some l => l end).
Proof.
  unfold init. intros E. inv_bind E. injection E as <-. cbn [coords_depths].
  rewrite <- !list_elem_of_In.
  rewrite (merge_sort_Permutation Z.le). reflexivity.
Qed.

End Decoder_init.

(** ** C9: the encoder refuses a depth without a grid *)

Section Encoder_grid.
Context {T : Type} `{Scalar T}.
Import PointEncoder.

(** C9: when [svh.grids[depth]] is [None] the forward pass raises the
    assertion error at once; it returns no tensor. *)
Theorem forward_requires_grid
    (enc : PointEncoder.t T) (pts_xyz : Tensor T) (pts_feature : option (Tensor T))
    (svh : SparseFeatureHierarchy T) (depth : Z) :
  list_getitem (grids svh) depth = Ok None ->
  forward enc pts_xyz pts_feature svh depth = Err AssertionError.
Proof.
  intros Hg. unfold forward. rewrite Hg. reflexivity.
Qed.

End Encoder_grid.

(** ** C10: every depth of [coords_depths] needs a grid *)

Section Decoder_grids.
Context {T : Type} `{Scalar T}.
Import MultiscalePointDecoder.

(** C10: if some depth of [coords_depths] has no grid, the positional
    encoding loop fails and with it the forward pass; the sampling step of
    lines 171-177 accepts the same absent grid and gives zeros for it. *)
Theorem forward_requires_coords_grids
    (dec : MultiscalePointDecoder.t T) (xyz : Tensor T)
    (svh : SparseFeatureHierarchy T) (multiscale_feat : gmap Z (Tensor T)) (did : Z) :
  In did (coords_depths dec) ->
  list_getitem (grids svh) did = Ok None ->
  is_err (mapM (pos_feat xyz svh) (coords_depths dec)) /\
  is_err (forward dec xyz svh multiscale_feat) /\
  sample_feat dec xyz svh multiscale_feat did = Ok (zeros (nrows xyz) (c_each_dim dec)).
Proof.
  intros Hin Hg.
  assert (Hp : is_err (mapM (pos_feat xyz svh) (coords_depths dec))).
  { apply (mapM_Err_In _ _ did Hin). unfold pos_feat. rewrite Hg. exact I. }
  split; [exact Hp|]. split.
  - unfold forward. apply bind_Err_l. exact Hp.
  - unfold sample_feat. rewrite Hg. reflexivity.
Qed.

End Decoder_grids.

(** ** The per-depth local coordinate without rounding *)

Section Local_coord.
Import QcScalar MultiscalePointDecoder.
Local Open Scope Qc_scope.

Lemma Qfloor_add_1 (q : Q) : Qfloor (q + 1)%Q = (Qfloor q + 1)%Z.
Proof.
  destruct q as [n d]. unfold Qfloor, Qplus. simpl.
  rewrite Pos.mul_1_r, Z.mul_1_r.
  rewrite Z.div_add by discriminate. reflexivity.
Qed.

Lemma floor_add_1 (q : Qc) : floor (q + 1) = (floor q + 1)%Z.
Proof.
  unfold floor. rewrite <- Qfloor_add_1.
  apply Qfloor_comp. simpl. apply Qred_correct.
Qed.

Lemma floor_spec (q : Qc) : Qc_of_Z (floor q) <= q /\ q < Qc_of_Z (floor q) + 1.
Proof.
  unfold floor, Qcle, Qclt. simpl. rewrite Qred_correct. split.
  - apply Qfloor_le.
  - pose proof (Qlt_floor q) as Hlt. rewrite inject_Z_plus in Hlt. exact Hlt.
Qed.

Lemma Qc_of_Z_add_1 (z : Z) : Qc_of_Z (z + 1) = Qc_of_Z z + 1.
Proof. apply Qc_is_canon. simpl. rewrite Qred_correct, inject_Z_plus. reflexivity. Qed.

Lemma floor_unique (q : Qc) (z : Z) :
  Qc_of_Z z <= q -> q < Qc_of_Z z + 1 -> floor q = z.
Proof.
  intros Hl Hu. destruct (floor_spec q) as [Fl Fu].
  assert (H1 : Qc_of_Z z < Qc_of_Z (floor q) + 1) by (eapply Qcle_lt_trans; eassumption).
  assert (H2 : Qc_of_Z (floor q) < Qc_of_Z z + 1) by (eapply Qcle_lt_trans; eassumption).
  rewrite <- Qc_of_Z_add_1 in H1, H2.
  unfold Qclt in H1, H2. simpl in H1, H2.
  rewrite <- Zlt_Qlt in H1, H2. lia.
Qed.

(** [(x % s) / s] is the fractional part of [x / s]. *)
Lemma rem_div (x s : Qc) : s <> 0 -> rem x s / s = x / s - Qc_of_Z (floor (x / s)).
Proof. intros Hs. unfold rem. field. exact Hs. Qed.

Lemma rem_period (x s : Qc) : s <> 0 -> rem (x + s) s = rem x s.
Proof.
  intros Hs. unfold rem.
  replace ((x + s) / s) with (x / s + 1) by (field; exact Hs).
  rewrite floor_add_1, Qc_of_Z_add_1. ring.
Qed.

Lemma frac_minus_half (q f : Qc) :
  f <= q -> q < f + 1 -> - half <= q - f - half /\ q - f - half < half.
Proof.
  intros Hl Hu. unfold Qcle, Qclt in *. simpl in *.
  rewrite ?Qred_correct in *. unfold Qminus. rewrite ?Qred_correct.
  destruct q as [q cq], f as [f cf]; simpl in *. split; lra.
Qed.

(** Without rounding and for a voxel size [s] other than zero, the local
    coordinate lies in [[-1/2, 1/2)] and is the same for [x] and [x + s]. *)
Lemma local_coord_exact (x s : Qc) :
  s <> 0 ->
  local_coord x s = rem x s / s - half /\
  (- half <= local_coord x s /\ local_coord x s < half) /\
  local_coord (x + s) s = local_coord x s.
Proof.
  intros Hs. split; [reflexivity|]. split.
  - unfold local_coord. cbn [s_sub s_div s_rem s_half scalar].
    rewrite rem_div by exact Hs.
    destruct (floor_spec (x / s)) as [Hl Hu].
    apply frac_minus_half; assumption.
  - unfold local_coord. cbn [s_sub s_div s_rem s_half scalar].
    rewrite rem_period by exact Hs. reflexivity.
Qed.

End Local_coord.

(** ** C7: aggregation of equal per-depth features *)



Lemma map_repeat_const {A B} (f : A -> B) (a : A) (n : nat) :
  map f (repeat a n) = repeat (f a) n.
Proof. induction n; simpl; congruence. Qed.

Section Aggregation.
Context {T : Type} `{Scalar T}.
Import MultiscalePointDecoder.








End Aggregation.

(** ** C5: the output layer at initialization *)

Section Decoder_out_init.
Context {T : Type} `{Scalar T}.
Import MultiscalePointDecoder.

Lemma affine_zero_weight_bias `{!ExactScalar T} (L : Linear T) (W : list (list T))
    (b x : list T) :
  weight L = map (map (fun _ => s_zero)) W ->
  bias L = Some b ->
  length W = length b ->
  affine L x = b.
Proof.
  intros HW Hb Hlen. unfold affine. rewrite Hb, HW. clear HW Hb.
  revert b Hlen. induction W as [|w W IH]; intros [|b0 b] Hlen;
    simpl in *; try discriminate; try reflexivity.
  rewrite dot_zero_weight, s_add_0_l. f_equal. apply IH. lia.
Qed.

(** With [out_init = v] the output layer has zero weight and bias
    [v, ..., v]. *)
Lemma fc_out_params
    (c_each D p_dim n_out hidden nb : nat) (agg : string) (v : T)
    (coords : option (list Z)) (rnd : nat -> Draw T)
    (dec : MultiscalePointDecoder.t T) :
  init c_each D p_dim n_out hidden nb agg (Some v) coords rnd = Ok dec ->
  out_features (fc_out dec) = n_out /\
  weight (fc_out dec) = repeat (repeat s_zero hidden) n_out /\
  bias (fc_out dec) = Some (repeat v n_out).
Proof.
  unfold init. intros E. inv_bind E. injection E as <-. cbn [fc_out].
  split; [reflexivity|].
  unfold init_constant_bias, init_zeros_weight, nn_Linear;
    cbn [weight bias option_map in_features out_features]. split.
  - unfold tabulate at 1. rewrite map_map.
    erewrite map_ext by (intros j; rewrite map_const_repeat, tabulate_length; reflexivity).
    rewrite map_const_repeat, length_seq. reflexivity.
  - rewrite map_const_repeat, tabulate_length. reflexivity.
Qed.

(** Such a layer maps every row to [v, ..., v]. *)
Lemma fc_out_at_init `{!ExactScalar T}
    (c_each D p_dim n_out hidden nb : nat) (agg : string) (v : T)
    (coords : option (list Z)) (rnd : nat -> Draw T)
    (dec : MultiscalePointDecoder.t T) (x : list T) :
  init c_each D p_dim n_out hidden nb agg (Some v) coords rnd = Ok dec ->
  out_features (fc_out dec) = n_out /\ affine (fc_out dec) x = repeat v n_out.
Proof.
  intros E. destruct (fc_out_params _ _ _ _ _ _ _ _ _ _ _ E) as (Ho & HW & Hb).
  split; [exact Ho|].
  apply (affine_zero_weight_bias _ (repeat (repeat s_zero hidden) n_out)).
  - rewrite HW, map_repeat_const, map_repeat_const. reflexivity.
  - exact Hb.
  - rewrite !repeat_length. reflexivity.
Qed.

(** C5 (values): for a decoder constructed with [out_init = v], whatever the
    query points, the hierarchy and the features, every component of a
    returned output is [v]. *)
Lemma init_output_values `{!ExactScalar T}
    (c_each D p_dim n_out hidden nb : nat) (agg : string) (v : T)
    (coords : option (list Z)) (rnd : nat -> Draw T)
    (dec : MultiscalePointDecoder.t T)
    (xyz : Tensor T) (svh : SparseFeatureHierarchy T)
    (multiscale_feat : gmap Z (Tensor T)) (out : Tensor T) :
  init c_each D p_dim n_out hidden nb agg (Some v) coords rnd = Ok dec ->
  forward dec xyz svh multiscale_feat = Ok out ->
  out = {| ncols := n_out; rows := repeat (repeat v n_out) (nrows out) |}.
Proof.
  intros Hinit E. unfold forward in E.
  do 6 inv_bind E.
  unfold Linear_forward in E. destruct (_ =? _); [|discriminate].
  injection E as <-. unfold nrows; cbn [rows ncols].
  destruct (fc_out_at_init _ _ _ _ _ _ _ _ _ _ _ [] Hinit) as [-> _]. f_equal.
  rewrite length_map, <- map_const_repeat. apply map_ext.
  intros r. apply (fc_out_at_init _ _ _ _ _ _ _ _ _ _ _ r Hinit).
Qed.

End Decoder_out_init.

(** ** Shapes: when the layers cannot raise *)

Lemma mapM_total {A B} (f : A -> result B) (Q : B -> Prop) (l : list A) :
  (forall x, In x l -> exists y, f x = Ok y /\ Q y) ->
  exists ys, mapM f l = Ok ys /\ Forall Q ys /\ length ys = length l.
Proof.
  induction l as [|x l IH]; intros Hf; simpl.
  - exists []. auto.
  - destruct (Hf x) as (y & Ey & Qy); [left; reflexivity|].
    destruct IH as (ys & Eys & Qys & Hlen); [intros z Hz; apply Hf; right; exact Hz|].
    exists (y :: ys). rewrite Ey, Eys. simpl. auto.
Qed.

Lemma foldM_invariant {A B} (f : B -> A -> result B) (P : B -> Prop) (l : list A) (b : B) :
  (forall acc x, In x l -> P acc -> exists acc', f acc x = Ok acc' /\ P acc') ->
  P b ->
  exists r, foldM f l b = Ok r /\ P r.
Proof.
  revert b; induction l as [|x l IH]; intros b Hf Hb; simpl.
  - eauto.
  - destruct (Hf b x) as (b' & Eb & Pb'); [left; reflexivity | exact Hb |].
    rewrite Eb. simpl. apply IH; [|exact Pb'].
    intros acc z Hz. apply Hf. right. exact Hz.
Qed.

Lemma foldM_preserves {A B} (f : B -> A -> result B) (P : B -> Prop) (l : list A) (b r : B) :
  (forall acc x acc', In x l -> P acc -> f acc x = Ok acc' -> P acc') ->
  P b -> foldM f l b = Ok r -> P r.
Proof.
  revert b; induction l as [|x l IH]; intros b Hf Hb E; simpl in E.
  - injection E as <-. exact Hb.
  - inv_bind E. eapply IH; [| |exact E].
    + intros acc z acc' Hz. apply Hf. right. exact Hz.
    + eapply Hf; [left; reflexivity | exact Hb | exact Ha].
Qed.

Lemma map2_length {A B C} (f : A -> B -> C) (l1 : list A) (l2 : list B) :
  length (map2 f l1 l2) = Nat.min (length l1) (length l2).
Proof. revert l2; induction l1; intros [|b l2]; simpl; auto. Qed.

Section Shapes.
Context {T : Type} `{Scalar T}.

Lemma map_tensor_shape (f : T -> T) (t : Tensor T) (n c : nat) :
  has_shape t n c -> has_shape (map_tensor f t) n c.
Proof.
  intros [Hn Hc]. split; [|exact Hc].
  unfold nrows, map_tensor in *; cbn [rows]. rewrite length_map. exact Hn.
Qed.

Lemma Linear_forward_shape (L : Linear T) (t : Tensor T) (n c : nat) :
  in_features L = c -> has_shape t n c ->
  exists t', Linear_forward L t = Ok t' /\ has_shape t' n (out_features L) /\
             rows t' = map (affine L) (rows t).
Proof.
  intros HL [Hn Hc]. unfold Linear_forward. rewrite Hc, HL, Nat.eqb_refl.
  eexists. split; [reflexivity|]. split; [|reflexivity].
  split; [|reflexivity]. unfold nrows in *; cbn [rows]. rewrite length_map. exact Hn.
Qed.

Lemma Linear_forward_Ok_shape (L : Linear T) (t t' : Tensor T) :
  Linear_forward L t = Ok t' ->
  ncols t = in_features L /\ has_shape t' (nrows t) (out_features L) /\
  rows t' = map (affine L) (rows t).
Proof.
  unfold Linear_forward. destruct (_ =? _) eqn:E; [|discriminate].
  intros [= <-]. apply Nat.eqb_eq in E. split; [exact E|]. split; [|reflexivity].
  split; [|reflexivity]. unfold nrows; cbn [rows]. apply length_map.
Qed.

Lemma tensor_add_shape (a b : Tensor T) (n c : nat) :
  has_shape a n c -> has_shape b n c ->
  exists t, tensor_add a b = Ok t /\ has_shape t n c.
Proof.
  intros [Han Hac] [Hbn Hbc]. rewrite tensor_add_same_shape by congruence.
  eexists. split; [reflexivity|]. split; [|exact Hac].
  unfold nrows in *; cbn [rows]. rewrite map2_length. lia.
Qed.

Lemma block_forward_shape (blk : ResnetBlockFC.t T) (i o : nat) (x : Tensor T) (n : nat) :
  block_ok i o blk -> has_shape x n i ->
  exists y, ResnetBlockFC.forward blk x = Ok y /\ has_shape y n o.
Proof.
  intros (H0 & H1 & H2 & Hs) Hx. unfold ResnetBlockFC.forward.
  destruct (Linear_forward_shape (ResnetBlockFC.fc_0 blk) (map_tensor relu x) n i H0)
    as (net & -> & Hnet & _); [apply map_tensor_shape; exact Hx|].
  cbn [bind].
  destruct (Linear_forward_shape (ResnetBlockFC.fc_1 blk) (map_tensor relu net) n
              (in_features (ResnetBlockFC.fc_1 blk)) eq_refl)
    as (dx & -> & Hdx & _).
  { apply map_tensor_shape. rewrite <- H1. exact Hnet. }
  cbn [bind]. rewrite H2 in Hdx.
  destruct (ResnetBlockFC.shortcut blk) as [s|].
  - destruct Hs as [Hsi Hso].
    destruct (Linear_forward_shape s x n i Hsi Hx) as (x_s & -> & Hxs & _).
    cbn [bind]. rewrite Hso in Hxs. apply tensor_add_shape; assumption.
  - cbn [bind]. rewrite <- Hs in *. apply tensor_add_shape; assumption.
Qed.

Lemma block_init_ok (i : nat) (o h : option nat) (rnd : nat -> Draw T) :
  block_ok i (match o with None => i | Some s => s end) (ResnetBlockFC.init i o h rnd).
Proof.
  unfold block_ok, ResnetBlockFC.init.
  cbn [ResnetBlockFC.fc_0 ResnetBlockFC.fc_1 ResnetBlockFC.shortcut].
  repeat split.
  destruct (i =? _) eqn:E.
  - apply Nat.eqb_eq in E. exact E.
  - split; reflexivity.
Qed.

Lemma cat_rows_length (ts : list (Tensor T)) (n : nat) :
  Forall (fun t => nrows t = n) ts -> length (cat_rows ts n) = n.
Proof.
  induction 1 as [|t ts Ht _ IH]; simpl.
  - apply repeat_length.
  - rewrite map2_length, IH. unfold nrows in Ht. lia.
Qed.

Lemma cat1_shape (ts : list (Tensor T)) (n : nat) :
  ts <> [] -> Forall (fun t => nrows t = n) ts ->
  exists t, cat1 ts = Ok t /\ has_shape t n (list_sum (map ncols ts)).
Proof.
  intros Hne Hall. destruct ts as [|t ts]; [congruence|]. unfold cat1.
  pose proof Hall as Hall'. apply Forall_cons_iff in Hall' as [Ht Hts].
  replace (forallb _ ts) with true.
  - eexists. split; [reflexivity|]. split; [|reflexivity].
    unfold nrows at 1; cbn [rows]. rewrite Ht. apply cat_rows_length. exact Hall.
  - symmetry. apply forallb_forall. intros u Hu.
    rewrite List.Forall_forall in Hts. rewrite (Hts u Hu), Ht. apply Nat.eqb_refl.
Qed.

End Shapes.

(** ** The decoder's forward pass on well-shaped input *)

Lemma list_getitem_nat {A} (l : list A) (k : nat) :
  k < length l -> exists a, list_getitem l (Z.of_nat k) = Ok a /\ In a l.
Proof.
  intros Hk. unfold list_getitem.
  destruct (Z.ltb_spec (Z.of_nat k) 0) as [Hneg|_]; [lia|].
  destruct (Z.ltb_spec (Z.of_nat k) 0) as [Hneg|_]; [lia|].
  rewrite Nat2Z.id.
  destruct (lookup_lt_is_Some_2 l k Hk) as [a Ha]. rewrite Ha.
  exists a. split; [reflexivity|].
  apply list_elem_of_In. apply list_elem_of_lookup. eauto.
Qed.

Lemma in_range (n : nat) (i : Z) : In i (range n) <-> exists k, i = Z.of_nat k /\ k < n.
Proof.
  unfold range. rewrite in_map_iff. split.
  - intros (k & <- & Hk). apply in_seq in Hk. exists k. split; [reflexivity | lia].
  - intros (k & -> & Hk). exists k. split; [reflexivity|]. apply in_seq. lia.
Qed.

Lemma range_length (n : nat) : length (range n) = n.
Proof. unfold range. rewrite length_map, length_seq. reflexivity. Qed.

Lemma list_sum_ncols {T} (ts : list (Tensor T)) (c : nat) :
  Forall (fun t => ncols t = c) ts -> list_sum (map ncols ts) = length ts * c.
Proof. induction 1 as [|t ts Ht _ IH]; simpl; [reflexivity | lia]. Qed.

Section Decoder_total.
Context {T : Type} `{Scalar T}.
Import MultiscalePointDecoder.

Lemma py_sum_shape (ts : list (Tensor T)) (n c : nat) :
  ts <> [] -> Forall (fun t => has_shape t n c) ts ->
  exists t, py_sum ts = Ok (Some t) /\ has_shape t n c.
Proof.
  intros Hne Hall. destruct ts as [|t0 ts]; [congruence|].
  apply Forall_cons_iff in Hall as [H0 Hts].
  unfold py_sum. cbn [foldM sum_step bind].
  destruct (foldM_invariant sum_step (fun acc => exists t, acc = Some t /\ has_shape t n c)
              ts (Some (map_tensor (fun x => s_add x s_zero) t0))) as (r & Er & t & -> & Ht).
  - intros acc t Ht (a & -> & Ha). rewrite List.Forall_forall in Hts.
    destruct (tensor_add_shape a t n c Ha (Hts t Ht)) as (r & Er & Hr).
    cbn [sum_step]. rewrite Er. cbn [bind]. eauto.
  - eexists. split; [reflexivity|]. apply map_tensor_shape. exact H0.
  - eauto.
Qed.

Lemma pos_encode_shape (vs : nat -> T) (xyz : Tensor T) :
  has_shape (pos_encode vs xyz) (nrows xyz) (ncols xyz).
Proof.
  split; [|reflexivity]. unfold nrows, pos_encode; cbn [rows]. apply length_map.
Qed.

(** A decoder whose layers fit together returns one output row per query
    point on every well-shaped input. *)
Lemma forward_total (dec : MultiscalePointDecoder.t T) (p_dim hidden : nat)
    (xyz : Tensor T) (svh : SparseFeatureHierarchy T)
    (multiscale_feat : gmap Z (Tensor T)) :
  decoder_ok p_dim hidden dec ->
  ncols xyz = p_dim ->
  coords_depths dec <> [] ->
  0 < multiscale_depths dec ->
  coords_grids_present dec svh ->
  samples_ok dec xyz svh multiscale_feat ->
  exists out, forward dec xyz svh multiscale_feat = Ok out /\
              has_shape out (nrows xyz) (out_features (fc_out dec)).
Proof.
  intros (Hagg & Hpi & Hpo & Hfcl & Hfc & Hbl & Hb & Hout) Hxyz Hcoords HD Hgrids Hsamples.
  unfold forward.
  (* positional features *)
  destruct (mapM_total (pos_feat xyz svh) (fun t => has_shape t (nrows xyz) p_dim)
              (coords_depths dec)) as (p_feats & -> & Hp & Hplen).
  { intros did Hin. unfold coords_grids_present in Hgrids.
    rewrite List.Forall_forall in Hgrids. destruct (Hgrids did Hin) as (g & Hg).
    unfold pos_feat. rewrite Hg. cbn [bind]. eexists. split; [reflexivity|].
    rewrite <- Hxyz. apply pos_encode_shape. }
  cbn [bind].
  destruct (cat1_shape p_feats (nrows xyz)) as (p & -> & Hpshape).
  { intros ->. destruct (coords_depths dec); [congruence | discriminate]. }
  { eapply List.Forall_impl; [|exact Hp]. intros t [Ht _]. exact Ht. }
  rewrite (list_sum_ncols p_feats p_dim) in Hpshape
    by (eapply List.Forall_impl; [|exact Hp]; intros t [_ Ht]; exact Ht).
  cbn [bind].
  (* sampled features *)
  destruct (mapM_total (sample_feat dec xyz svh multiscale_feat)
              (fun t => has_shape t (nrows xyz) (c_each_dim dec))
              (range (multiscale_depths dec))) as (c_feats & -> & Hc & Hclen).
  { intros did Hin. unfold samples_ok in Hsamples.
    rewrite List.Forall_forall in Hsamples. specialize (Hsamples did Hin).
    unfold sample_feat. destruct (list_getitem (grids svh) did) as [[g|]|e]; cbn [bind].
    - destruct Hsamples as (F & t & HF & Et & Ht). unfold dict_getitem. rewrite HF.
      cbn [bind]. eauto.
    - eexists. split; [reflexivity|]. split; [|reflexivity].
      unfold nrows, zeros; cbn [rows]. apply repeat_length.
    - destruct Hsamples. }
  cbn [bind]. rewrite range_length in Hclen.
  assert (Hcne : c_feats <> []) by (intros ->; simpl in Hclen; lia).
  assert (Hc_agg : exists c, aggregate dec c_feats = Ok (Some c) /\
                             has_shape c (nrows xyz) (c_dim dec)).
  { unfold aggregate. destruct Hagg as [[-> Hcd]|[-> Hcd]]; cbn [String.eqb Ascii.eqb Bool.eqb].
    - destruct (cat1_shape c_feats (nrows xyz) Hcne) as (c & -> & Hcs).
      { eapply List.Forall_impl; [|exact Hc]. intros t [Ht _]. exact Ht. }
      rewrite (list_sum_ncols c_feats (c_each_dim dec)) in Hcs
        by (eapply List.Forall_impl; [|exact Hc]; intros t [_ Ht]; exact Ht).
      cbn [bind]. eexists. split; [reflexivity|].
      rewrite Hcd, Nat.mul_comm, <- Hclen. exact Hcs.
    - destruct (py_sum_shape c_feats (nrows xyz) (c_each_dim dec) Hcne Hc) as (c & -> & Hcs).
      eexists. split; [reflexivity|]. rewrite Hcd. exact Hcs. }
  destruct Hc_agg as (c & -> & Hcshape). cbn [bind].
  (* fusion *)
  rewrite <- Hplen, Nat.mul_comm in Hpi.
  destruct (Linear_forward_shape (fc_p dec) p (nrows xyz) _ Hpi Hpshape) as (net & -> & Hnet & _).
  cbn [bind]. rewrite Hpo in Hnet.
  destruct (foldM_invariant (fuse_step dec (Some c))
              (fun t => has_shape t (nrows xyz) hidden)
              (range (n_blocks dec)) net) as (net' & -> & Hnet'); [|exact Hnet|].
  { intros acc i Hi Hacc. apply in_range in Hi as (k & -> & Hk). unfold fuse_step.
    destruct (list_getitem_nat (fc_c dec) k) as (L & -> & HL); [lia|].
    rewrite List.Forall_forall in Hfc.
    destruct (Hfc L HL) as [HLi HLo]. cbn [bind].
    destruct (Linear_forward_shape L c (nrows xyz) _ HLi Hcshape) as (cc & -> & Hcc & _).
    cbn [bind]. rewrite HLo in Hcc.
    destruct (tensor_add_shape acc cc _ _ Hacc Hcc) as (s & -> & Hs). cbn [bind].
    destruct (list_getitem_nat (blocks dec) k) as (blk & -> & Hblk); [lia|].
    rewrite List.Forall_forall in Hb. cbn [bind].
    apply (block_forward_shape blk hidden hidden s _ (Hb blk Hblk) Hs). }
  cbn [bind].
  destruct (Linear_forward_shape (fc_out dec) (map_tensor relu net') (nrows xyz) hidden Hout)
    as (out & -> & Hos & _); [apply map_tensor_shape; exact Hnet'|].
  eauto.
Qed.

(** The constructor builds layers that fit together. *)
Lemma init_decoder_ok
    (c_each D p_dim n_out hidden nb : nat) (agg : string) (out_init : option T)
    (coords : option (list Z)) (rnd : nat -> Draw T) (dec : MultiscalePointDecoder.t T) :
  init c_each D p_dim n_out hidden nb agg out_init coords rnd = Ok dec ->
  decoder_ok p_dim hidden dec /\ out_features (fc_out dec) = n_out /\
  c_each_dim dec = c_each /\ multiscale_depths dec = D.
Proof.
  intros E. unfold init in E. inv_bind E. injection E as <-.
  assert (Hc : (agg = "cat"%string /\ a = c_each * D) \/ (agg = "sum"%string /\ a = c_each)).
  { destruct (String.eqb agg "cat") eqn:Ecat.
    - apply String.eqb_eq in Ecat. injection Ha as <-. auto.
    - destruct (String.eqb agg "sum") eqn:Esum; [|discriminate].
      apply String.eqb_eq in Esum. injection Ha as <-. auto. }
  unfold decoder_ok.
  cbn [c_dim c_each_dim multiscale_depths n_blocks aggregation coords_depths fc_c fc_p
       blocks fc_out] in *.
  split; [|split; [|split]]; try reflexivity.
  - split; [|split; [|split; [|split; [|split; [|split; [|split]]]]]].
    + exact Hc.
    + reflexivity.
    + reflexivity.
    + apply tabulate_length.
    + apply List.Forall_forall. intros L HL. unfold tabulate in HL.
      apply in_map_iff in HL as (k & <- & _). split; reflexivity.
    + apply tabulate_length.
    + apply List.Forall_forall. intros blk HL. unfold tabulate in HL.
      apply in_map_iff in HL as (k & <- & _).
      apply (block_init_ok hidden None None).
    + destruct out_init; reflexivity.
  - destruct out_init; reflexivity.
Qed.

End Decoder_total.

Section Decoder_at_init.
Context {T : Type} `{Scalar T}.
Import MultiscalePointDecoder.

(** C5: a decoder constructed with [out_init = v] has an output layer with
    zero weight and bias [v], so whatever the query points, the hierarchy
    and the features, every component of a returned output is [v]; and on
    every well-shaped input the forward pass does return, one row of
    [out_dim] copies of [v] per query point. *)
Theorem forward_at_init `{!ExactScalar T}
    (c_each D p_dim n_out hidden nb : nat) (agg : string) (v : T)
    (coords : option (list Z)) (rnd : nat -> Draw T)
    (dec : MultiscalePointDecoder.t T)
    (xyz : Tensor T) (svh : SparseFeatureHierarchy T)
    (multiscale_feat : gmap Z (Tensor T)) :
  init c_each D p_dim n_out hidden nb agg (Some v) coords rnd = Ok dec ->
  (weight (fc_out dec) = repeat (repeat s_zero hidden) n_out /\
   bias (fc_out dec) = Some (repeat v n_out)) /\
  (forall out, forward dec xyz svh multiscale_feat = Ok out ->
     out = {| ncols := n_out; rows := repeat (repeat v n_out) (nrows out) |}) /\
  (ncols xyz = p_dim -> coords_depths dec <> [] -> 0 < D ->
   coords_grids_present dec svh -> samples_ok dec xyz svh multiscale_feat ->
   forward dec xyz svh multiscale_feat =
     Ok {| ncols := n_out; rows := repeat (repeat v n_out) (nrows xyz) |}).
Proof.
  intros Hinit. split; [|split].
  - apply (fc_out_params _ _ _ _ _ _ _ _ _ _ _ Hinit).
  - intros out. apply (init_output_values _ _ _ _ _ _ _ _ _ _ _ _ _ _ _ Hinit).
  - intros Hxyz Hcoords HD Hgrids Hsamples.
    destruct (init_decoder_ok _ _ _ _ _ _ _ _ _ _ _ Hinit) as (Hok & Hout & Hce & HDd).
    destruct (forward_total dec p_dim hidden xyz svh multiscale_feat Hok Hxyz Hcoords)
      as (out & E & Hn & _); [lia | exact Hgrids | exact Hsamples |].
    rewrite E. f_equal.
    rewrite (init_output_values _ _ _ _ _ _ _ _ _ _ _ _ _ _ _ Hinit E).
    rewrite Hn. reflexivity.
Qed.

End Decoder_at_init.

(** ** Single-precision rounding *)

Ltac qc2q := unfold Qcle, Qclt in *; simpl in *; rewrite ?Qred_correct in *.

Ltac qc_lra :=
  unfold Qcle, Qclt in *;
  cbn [this Qcminus Qcplus Qcopp Q2Qc QcScalar.half] in *;
  rewrite ?Qred_correct in *; lra.

Section F32_round.
Import F32 QcScalar.
Local Open Scope Qc_scope.

Lemma two_not_0 : ~ (2 == 0)%Q.
Proof. discriminate. Qed.

Lemma pow2_pos (e : Z) : 0 < pow2 e.
Proof. unfold pow2. qc2q. apply Qpower_0_lt. reflexivity. Qed.

Lemma pow2_neq_0 (e : Z) : pow2 e <> 0.
Proof. intros E. symmetry in E. revert E. apply Qclt_not_eq, pow2_pos. Qed.

Lemma pow2_add (a b : Z) : pow2 (a + b) = pow2 a * pow2 b.
Proof.
  apply Qc_is_canon. unfold pow2. simpl. rewrite !Qred_correct.
  apply Qpower_plus. exact two_not_0.
Qed.

Lemma pow2_le (a b : Z) : (a <= b)%Z -> pow2 a <= pow2 b.
Proof.
  intros Hab. unfold pow2. qc2q. apply Qpower_le_compat_l; [exact Hab | discriminate].
Qed.

Lemma pow2_lt_inv (a b : Z) : pow2 a < pow2 b -> (a < b)%Z.
Proof.
  unfold pow2. qc2q. intros Hlt. apply (Qpower_lt_compat_l_inv 2); [exact Hlt | reflexivity].
Qed.

Lemma pow2_Z (k : Z) : (0 <= k)%Z -> pow2 k = Qc_of_Z (2 ^ k).
Proof.
  intros Hk. apply Qc_is_canon. unfold pow2. simpl. rewrite !Qred_correct.
  symmetry. apply (Zpower_Qpower 2 k Hk).
Qed.


(** [ilog2] *)
Lemma ilog2_spec (q : Qc) : 0 < q -> pow2 (ilog2 q) <= q /\ q < pow2 (ilog2 q + 1).
Proof.
  intros Hq. unfold ilog2.
  destruct q as [[a b] cq]. 
  assert (Ha : (0 < a)%Z).
  { unfold Qclt, Qlt in Hq. simpl in Hq. lia. }
  cbn [this Qnum Qden].
  set (la := Z.log2 a). set (lb := Z.log2 (Z.pos b)).
  destruct (Z.log2_spec a Ha) as [Ha1 Ha2]. fold la in Ha1, Ha2.
  destruct (Z.log2_spec (Z.pos b) (Pos2Z.is_pos b)) as [Hb1 Hb2]. fold lb in Hb1, Hb2.
  assert (Hla : (0 <= la)%Z) by apply Z.log2_nonneg.
  assert (Hlb : (0 <= lb)%Z) by apply Z.log2_nonneg.
  assert (Hq' : (a # b == inject_Z a / inject_Z (Z.pos b))%Q) by apply Qmake_Qdiv.
  assert (Hbpos : (0 < inject_Z (Z.pos b))%Q) by (rewrite <- (Zlt_Qlt 0); lia).
  assert (P1 : forall k, (0 <= k)%Z -> (0 < inject_Z (2 ^ k))%Q).
  { intros k Hk. rewrite <- (Zlt_Qlt 0). apply Z.pow_pos_nonneg; lia. }
  assert (Hpow : forall x y, (0 <= x)%Z -> (0 <= y)%Z ->
                   (2 ^ (x - y) == inject_Z (2 ^ x) / inject_Z (2 ^ y))%Q).
  { intros x y Hx Hy. rewrite Qpower_minus by exact two_not_0.
    rewrite !Zpower_Qpower by assumption. reflexivity. }
  destruct (Qclt_le_dec _ _) as [Hlt|Hge].
  - split; [|replace (la - lb - 1 + 1)%Z with (la - lb)%Z by lia; exact Hlt].
    unfold pow2. qc2q. rewrite Hq'.
    replace (la - lb - 1)%Z with (la - (lb + 1))%Z by lia.
    rewrite Hpow by lia.
    apply Qle_shift_div_l; [exact Hbpos|].
    unfold Qdiv. rewrite <- Qmult_assoc, (Qmult_comm (/ _)), Qmult_assoc.
    apply Qle_shift_div_r; [apply P1; lia|].
    rewrite <- !inject_Z_mult, <- Zle_Qle.
    replace (lb + 1)%Z with (Z.succ lb) by lia. nia.
  - split; [exact Hge|].
    unfold pow2. qc2q. rewrite Hq'.
    replace (la - lb + 1)%Z with (la + 1 - lb)%Z by lia.
    rewrite Hpow by lia.
    apply Qlt_shift_div_r; [exact Hbpos|].
    unfold Qdiv. rewrite <- Qmult_assoc, (Qmult_comm (/ _)), Qmult_assoc.
    apply Qlt_shift_div_l; [apply P1; lia|].
    rewrite <- !inject_Z_mult, <- Zlt_Qlt.
    replace (la + 1)%Z with (Z.succ la) by lia. nia.
Qed.

Lemma ilog2_mono (x y : Qc) : 0 < x -> x <= y -> (ilog2 x <= ilog2 y)%Z.
Proof.
  intros Hx Hxy.
  assert (Hy : 0 < y) by (eapply Qclt_le_trans; eassumption).
  destruct (ilog2_spec x Hx) as [Hx1 _]. destruct (ilog2_spec y Hy) as [_ Hy2].
  assert (H : pow2 (ilog2 x) < pow2 (ilog2 y + 1)).
  { eapply Qcle_lt_trans; [exact Hx1|]. eapply Qcle_lt_trans; eassumption. }
  apply pow2_lt_inv in H. lia.
Qed.

Lemma ilog2_lt (q : Qc) (k : Z) : 0 < q -> q < pow2 k -> (ilog2 q < k)%Z.
Proof.
  intros Hq Hk. destruct (ilog2_spec q Hq) as [H1 _].
  apply pow2_lt_inv. eapply Qcle_lt_trans; eassumption.
Qed.


(** Rounding to the nearest integer *)

Lemma rne_cases (q : Qc) :
  rne q = floor q \/ (rne q = (floor q + 1)%Z /\ half <= q - Qc_of_Z (floor q)).
Proof.
  unfold rne. destruct (Qclt_le_dec _ _) as [Hlt|Hge]; [left; reflexivity|].
  destruct (Qclt_le_dec _ _) as [Hlt2|Hge2]; [right; split; [reflexivity|exact Hge]|].
  destruct (Z.even _); [left; reflexivity | right; split; [reflexivity|exact Hge]].
Qed.

Lemma floor_ge (n : Z) (q : Qc) : Qc_of_Z n <= q -> (n <= floor q)%Z.
Proof.
  intros Hn. unfold floor.
  rewrite <- (Qfloor_Z n). apply Qfloor_resp_le. exact Hn.
Qed.

Lemma rne_ge (n : Z) (q : Qc) : Qc_of_Z n <= q -> (n <= rne q)%Z.
Proof.
  intros Hn. apply floor_ge in Hn.
  destruct (rne_cases q) as [->|[-> _]]; lia.
Qed.

Lemma rne_le (n : Z) (q : Qc) : q <= Qc_of_Z n -> (rne q <= n)%Z.
Proof.
  intros Hn. destruct (floor_spec q) as [Fl Fu].
  destruct (rne_cases q) as [->|[-> Hd]].
  - apply (proj2 (Z2Qc_inj_le _ _)). eapply Qcle_trans; eassumption.
  - assert (Hlt : Qc_of_Z (floor q) < Qc_of_Z n).
    { eapply Qclt_le_trans; [|exact Hn].
      assert (Hh : 0 < half) by reflexivity.
      qc2q. unfold Qminus in *. rewrite ?Qred_correct in *.
      destruct q as [q cq]; simpl in *. lra. }
    apply (proj2 (Z2Qc_inj_lt _ _)) in Hlt. lia.
Qed.

Lemma rne_Z (n : Z) : rne (Qc_of_Z n) = n.
Proof.
  apply Z.le_antisymm; [apply rne_le | apply rne_ge]; apply Qcle_refl.
Qed.


(** Rounding to the format *)

Lemma div_mul_cancel (x u : Qc) : u <> 0 -> x / u * u = x.
Proof. intros Hu. field. exact Hu. Qed.

Lemma round_at_ge (x u : Qc) (n : Z) :
  0 < u -> Qc_of_Z n * u <= x -> Qc_of_Z n * u <= Qc_of_Z (rne (x / u)) * u.
Proof.
  intros Hu Hn.
  assert (Hu0 : u <> 0) by (apply not_eq_sym, Qclt_not_eq, Hu).
  apply Qcmult_le_compat_r; [|apply Qclt_le_weak, Hu].
  apply (proj1 (Z2Qc_inj_le _ _)), rne_ge, (Qcmult_lt_0_le_reg_r _ _ u Hu).
  rewrite div_mul_cancel by exact Hu0. exact Hn.
Qed.

Lemma round_at_le (x u : Qc) (m : Z) :
  0 < u -> x <= Qc_of_Z m * u -> Qc_of_Z (rne (x / u)) * u <= Qc_of_Z m * u.
Proof.
  intros Hu Hm.
  assert (Hu0 : u <> 0) by (apply not_eq_sym, Qclt_not_eq, Hu).
  apply Qcmult_le_compat_r; [|apply Qclt_le_weak, Hu].
  apply (proj1 (Z2Qc_inj_le _ _)), rne_le, (Qcmult_lt_0_le_reg_r _ _ u Hu).
  rewrite div_mul_cancel by exact Hu0. exact Hm.
Qed.

Lemma round_fin_0 : round_fin 0 = 0.
Proof.
  unfold round_fin. set (u := pow2 _).
  replace (0 / u) with (Qc_of_Z 0) by (rewrite Z2Qc_inj_0; field; apply pow2_neq_0).
  rewrite rne_Z, Z2Qc_inj_0. ring.
Qed.

Lemma Qcabs_pos_lt (x : Qc) : x <> 0 -> 0 < Qcabs.Qcabs x.
Proof.
  intros Hx. destruct (Qcle_lt_or_eq _ _ (Qcabs.Qcabs_nonneg x)) as [H|H]; [exact H|].
  symmetry in H. apply Qcabs.Qcabs_null in H. contradiction.
Qed.

Lemma qexp_mono (x B : Qc) : x <> 0 -> Qcabs.Qcabs x <= Qcabs.Qcabs B -> (qexp x <= qexp B)%Z.
Proof.
  intros Hx Hle. unfold qexp.
  pose proof (ilog2_mono _ _ (Qcabs_pos_lt x Hx) Hle). lia.
Qed.

Lemma round_fin_bounded (x B : Qc) :
  round_fin B = B -> 0 <= B -> - B <= x -> x <= B ->
  - B <= round_fin x /\ round_fin x <= B.
Proof.
  intros HB HB0 Hlo Hhi.
  destruct (Qc_eq_dec x 0) as [->|Hx].
  { rewrite round_fin_0. split; [|exact HB0].
    apply Qcopp_le_compat in HB0. exact HB0. }
  assert (Habs : Qcabs.Qcabs x <= Qcabs.Qcabs B).
  { rewrite (Qcabs.Qcabs_pos B HB0). apply Qcabs.Qcabs_Qcle_condition. split; assumption. }
  pose proof (qexp_mono x B Hx Habs) as Hq.
  unfold round_fin in HB. set (n := rne (B / pow2 (qexp B))) in HB.
  unfold round_fin. set (u := pow2 (qexp x)).
  assert (Hu : 0 < u) by apply pow2_pos.
  assert (HBu : B = Qc_of_Z (n * 2 ^ (qexp B - qexp x)) * u).
  { rewrite <- HB at 1. replace (qexp B) with ((qexp B - qexp x) + qexp x)%Z at 1 by lia.
    rewrite pow2_add, (pow2_Z (qexp B - qexp x)) by lia.
    rewrite Z2Qc_inj_mul. unfold u. ring. }
  set (N := (n * 2 ^ (qexp B - qexp x))%Z) in HBu.
  assert (HBu' : - B = Qc_of_Z (- N) * u) by (rewrite Z2Qc_inj_opp, HBu; ring).
  clearbody N. clear HB n. rewrite HBu', HBu in *.
  split; [apply round_at_ge | apply round_at_le]; assumption.
Qed.

Lemma round_fin_nonneg (x : Qc) : 0 <= x -> 0 <= round_fin x.
Proof.
  intros Hx. unfold round_fin. set (u := pow2 (qexp x)).
  assert (Hu : 0 < u) by apply pow2_pos.
  assert (E : 0 = Qc_of_Z 0 * u) by (rewrite Z2Qc_inj_0; ring).
  rewrite E at 1. apply round_at_ge; [exact Hu|]. rewrite <- E. exact Hx.
Qed.

Lemma is_f32_inv (q : Qc) : is_f32 q -> round_fin q = q /\ Qcabs.Qcabs q < pow2 emax.
Proof.
  unfold is_f32, round. destruct (Qclt_le_dec _ _) as [Hlt|Hge]; [|discriminate].
  intros [= E]. rewrite E in Hlt. split; [exact E | exact Hlt].
Qed.

(** Rounding does not leave an interval whose ends are in the format. *)
Lemma round_bounded (x B : Qc) :
  is_f32 B -> 0 <= B -> - B <= x -> x <= B ->
  exists y, round x = Fin y /\ - B <= y /\ y <= B /\ (0 <= x -> 0 <= y).
Proof.
  intros HB HB0 Hlo Hhi. apply is_f32_inv in HB as [HB Hmax].
  destruct (round_fin_bounded x B HB HB0 Hlo Hhi) as [Rlo Rhi].
  exists (round_fin x). split; [|split; [exact Rlo|split; [exact Rhi|apply round_fin_nonneg]]].
  unfold round. destruct (Qclt_le_dec _ _) as [Hlt|Hge]; [reflexivity|].
  exfalso. apply (Qcle_not_lt _ _ Hge).
  eapply Qcle_lt_trans; [|exact Hmax]. rewrite (Qcabs.Qcabs_pos B HB0).
  apply Qcabs.Qcabs_Qcle_condition. split; assumption.
Qed.

Lemma is_f32b_correct (q : Qc) : is_f32b q = true -> is_f32 q.
Proof.
  unfold is_f32b, is_f32. destruct (round q) as [r| |]; try discriminate.
  intros E. apply Qc_eq_bool_correct in E. rewrite E. reflexivity.
Qed.

Lemma is_f32_1 : is_f32 1.
Proof. apply is_f32b_correct. vm_compute. reflexivity. Qed.

Lemma half_add_half_1 : half + half = 1.
Proof. apply Qc_is_canon. reflexivity. Qed.

Lemma is_f32_half : is_f32 half.
Proof. apply is_f32b_correct. vm_compute. reflexivity. Qed.

(** [fmod] and [torch.remainder] *)

Lemma trunc_spec (q : Qc) :
  -(1) < q - Qc_of_Z (trunc q) /\ q - Qc_of_Z (trunc q) < 1.
Proof.
  unfold trunc. destruct (Qclt_le_dec q 0) as [Hneg|Hpos].
  - pose proof (Qfloor_le (- q)) as Fl. pose proof (Qlt_floor (- q)) as Fu.
    rewrite inject_Z_plus in Fu.
    unfold Qclt. cbn [this Qcminus Qcplus Qcopp Q2Qc Qc_of_Z].
    rewrite ?Qred_correct, inject_Z_opp.
    set (f := inject_Z (Qfloor (- q))) in *. clearbody f.
    change (inject_Z 1) with 1%Q in Fu. split; lra.
  - pose proof (Qfloor_le q) as Fl. pose proof (Qlt_floor q) as Fu.
    rewrite inject_Z_plus in Fu.
    unfold Qclt. cbn [this Qcminus Qcplus Qcopp Q2Qc Qc_of_Z].
    rewrite ?Qred_correct.
    set (f := inject_Z (Qfloor q)) in *. clearbody f.
    change (inject_Z 1) with 1%Q in Fu. split; lra.
Qed.

Lemma fmod_bound (x s : Qc) :
  0 < s ->
  - s < x - s * Qc_of_Z (trunc (x / s)) /\ x - s * Qc_of_Z (trunc (x / s)) < s.
Proof.
  intros Hs. assert (Hs0 : s <> 0) by (apply not_eq_sym, Qclt_not_eq, Hs).
  destruct (trunc_spec (x / s)) as [Hl Hu].
  replace (x - s * Qc_of_Z (trunc (x / s))) with ((x / s - Qc_of_Z (trunc (x / s))) * s)
    by (field; exact Hs0).
  pose proof (Qcmult_lt_compat_r _ _ s Hs Hl) as Hl'.
  pose proof (Qcmult_lt_compat_r _ _ s Hs Hu) as Hu'.
  rewrite Qcmult_1_l in Hu'. replace (-(1) * s) with (- s) in Hl' by ring.
  split; assumption.
Qed.


Lemma rem_range (x s : Qc) :
  is_f32 s -> 0 < s ->
  exists y, F32.rem (Fin x) (Fin s) = Fin y /\ 0 <= y /\ y <= s.
Proof.
  intros Hf Hs. unfold F32.rem, fmod, is_zero.
  destruct (Qc_eq_dec s 0) as [E|_]; [rewrite E in Hs; exfalso; revert Hs; apply Qcle_not_lt, Qcle_refl|].
  destruct (fmod_bound x s Hs) as [Hl Hu].
  set (m := x - s * Qc_of_Z (trunc (x / s))) in *. clearbody m.
  unfold ltb, zero.
  destruct (Qclt_le_dec s 0) as [Hneg|_]; [exfalso; qc_lra|].
  destruct (Qclt_le_dec m 0) as [Hm|Hm].
  - destruct (Qc_eq_dec m 0) as [E|_]; [rewrite E in Hm; exfalso; qc_lra|].
    cbn [negb andb Bool.eqb add].
    destruct (round_bounded (m + s) s Hf) as (y & Ey & _ & Hy & Hy0); try qc_lra.
    exists y. split; [exact Ey|]. split; [apply Hy0; qc_lra | exact Hy].
  - rewrite andb_false_r. exists m. split; [reflexivity|]. split; [exact Hm | qc_lra].
Qed.

Lemma div_range (y s : Qc) :
  0 < s -> 0 <= y -> y <= s ->
  exists z, div (Fin y) (Fin s) = Fin z /\ 0 <= z /\ z <= 1.
Proof.
  intros Hs Hy0 Hys. unfold div, is_zero.
  assert (Hs0 : s <> 0) by (apply not_eq_sym, Qclt_not_eq, Hs).
  destruct (Qc_eq_dec s 0) as [E|_]; [contradiction|].
  assert (H0 : 0 <= y / s).
  { apply (Qcmult_lt_0_le_reg_r _ _ s Hs). rewrite div_mul_cancel by exact Hs0.
    rewrite Qcmult_0_l. exact Hy0. }
  assert (H1 : y / s <= 1).
  { apply (Qcmult_lt_0_le_reg_r _ _ s Hs). rewrite div_mul_cancel by exact Hs0.
    rewrite Qcmult_1_l. exact Hys. }
  destruct (round_bounded (y / s) 1 is_f32_1) as (z & Ez & _ & Hz & Hz0); try qc_lra.
  exists z. split; [exact Ez|]. split; [apply Hz0; exact H0 | exact Hz].
Qed.

Lemma sub_half_range (z : Qc) :
  0 <= z -> z <= 1 ->
  exists w, sub (Fin z) F32.half = Fin w /\ - half <= w /\ w <= half.
Proof.
  intros Hz0 Hz1. unfold sub, F32.half, opp, add.
  destruct (round_bounded (z + - half) half is_f32_half) as (w & Ew & Hl & Hu & _);
    try qc_lra.
  exists w. split; [exact Ew|]. split; assumption.
Qed.

(** In single precision the local coordinate of a finite position, for a
    voxel size above zero, is finite and lies in the closed interval from
    -1/2 to 1/2. *)
Lemma local_coord_closed (x s : Qc) :
  is_f32 s -> 0 < s ->
  exists w, MultiscalePointDecoder.local_coord (Fin x) (Fin s) = Fin w /\
            - half <= w /\ w <= half.
Proof.
  intros Hf Hs. unfold MultiscalePointDecoder.local_coord.
  cbn [s_sub s_div s_rem s_half F32.scalar].
  destruct (rem_range x s Hf Hs) as (y & -> & Hy0 & Hys).
  destruct (div_range y s Hs Hy0 Hys) as (z & -> & Hz0 & Hz1).
  apply sub_half_range; assumption.
Qed.

Lemma trunc_floor (q : Qc) :
  trunc q = if Qclt_le_dec q 0 then (- floor (- q))%Z else floor q.
Proof.
  unfold trunc, floor. destruct (Qclt_le_dec q 0); [|reflexivity].
  f_equal. apply Qfloor_comp. cbn [this Qcopp Q2Qc]. symmetry. apply Qred_correct.
Qed.

Lemma trunc_small (q : Qc) : -(1) < q -> q < 1 -> trunc q = 0%Z.
Proof.
  intros Hl Hu. rewrite trunc_floor. destruct (Qclt_le_dec q 0) as [Hq|Hq].
  - rewrite (floor_unique (- q) 0); [reflexivity | |]; rewrite Z2Qc_inj_0; qc_lra.
  - apply floor_unique; rewrite Z2Qc_inj_0; qc_lra.
Qed.

Lemma trunc_add_1 (q : Qc) : 0 <= q \/ q + 1 <= 0 -> trunc (q + 1) = (trunc q + 1)%Z.
Proof.
  intros Hq. rewrite !trunc_floor.
  destruct (Qclt_le_dec (q + 1) 0) as [H1|H1], (Qclt_le_dec q 0) as [H0|H0].
  - destruct (floor_spec (- q)) as [Fl Fu].
    rewrite (floor_unique (- (q + 1)) (floor (- q) - 1)); [lia| |];
      rewrite Z2Qc_inj_sub, Z2Qc_inj_1; generalize dependent (Qc_of_Z (floor (- q)));
      intros f Fl Fu; qc_lra.
  - exfalso. qc_lra.
  - assert (E : q = - (1)) by (apply Qcle_antisym; destruct Hq; qc_lra).
    rewrite E.
    rewrite (floor_unique (-(1) + 1) 0), (floor_unique (- - (1)) 1); [reflexivity| | | |];
      rewrite ?Z2Qc_inj_0, ?Z2Qc_inj_1; qc_lra.
  - apply floor_add_1.
Qed.

Lemma div_le (x s c : Qc) : 0 < s -> x <= c * s -> x / s <= c.
Proof.
  intros Hs H. apply (Qcmult_lt_0_le_reg_r _ _ s Hs).
  rewrite div_mul_cancel by (apply not_eq_sym, Qclt_not_eq, Hs). exact H.
Qed.

Lemma div_ge (x s c : Qc) : 0 < s -> c * s <= x -> c <= x / s.
Proof.
  intros Hs H. apply (Qcmult_lt_0_le_reg_r _ _ s Hs).
  rewrite div_mul_cancel by (apply not_eq_sym, Qclt_not_eq, Hs). exact H.
Qed.

Lemma div_lt (x s c : Qc) : 0 < s -> x < c * s -> x / s < c.
Proof.
  intros Hs H. destruct (Qclt_le_dec (x / s) c) as [Hlt|Hge]; [exact Hlt|].
  exfalso. apply (Qclt_not_le _ _ H).
  apply (Qcmult_le_compat_r _ _ s) in Hge; [|apply Qclt_le_weak, Hs].
  rewrite div_mul_cancel in Hge by (apply not_eq_sym, Qclt_not_eq, Hs). exact Hge.
Qed.

Lemma div_gt (x s c : Qc) : 0 < s -> c * s < x -> c < x / s.
Proof.
  intros Hs H. destruct (Qclt_le_dec c (x / s)) as [Hlt|Hge]; [exact Hlt|].
  exfalso. apply (Qclt_not_le _ _ H).
  apply (Qcmult_le_compat_r _ _ s) in Hge; [|apply Qclt_le_weak, Hs].
  rewrite div_mul_cancel in Hge by (apply not_eq_sym, Qclt_not_eq, Hs). exact Hge.
Qed.

(** Moving a position by the voxel size does not change the remainder,
    provided the moved position is computed without rounding. *)
Lemma rem_shift (x s : Qc) :
  0 < s -> is_f32 (x + s) ->
  F32.rem (F32.add (Fin x) (Fin s)) (Fin s) = F32.rem (Fin x) (Fin s).
Proof.
  intros Hs Hf. assert (Hs0 : s <> 0) by (apply not_eq_sym, Qclt_not_eq, Hs).
  unfold F32.add. rewrite Hf.
  unfold F32.rem, fmod, is_zero.
  destruct (Qc_eq_dec s 0) as [E|_]; [contradiction|].
  replace ((x + s) / s) with (x / s + 1) by (field; exact Hs0).
  assert (Hsame : trunc (x / s + 1) = (trunc (x / s) + 1)%Z ->
    x + s - s * Qc_of_Z (trunc (x / s + 1)) = x - s * Qc_of_Z (trunc (x / s))).
  { intros ->. rewrite Z2Qc_inj_add, Z2Qc_inj_1. ring. }
  destruct (Qclt_le_dec x 0) as [Hx|Hx].
  - destruct (Qclt_le_dec (- s) x) as [Hx'|Hx'].
    + assert (T0 : trunc (x / s) = 0%Z).
      { apply trunc_small.
        - apply div_gt; [exact Hs|]. replace (-(1) * s) with (- s) by ring. exact Hx'.
        - apply div_lt; [exact Hs|]. rewrite Qcmult_1_l. eapply Qclt_trans; eassumption. }
      assert (T1 : trunc (x / s + 1) = 0%Z).
      { apply trunc_small.
        - assert (H : -(1) < x / s)
            by (apply div_gt; [exact Hs|]; replace (-(1) * s) with (- s) by ring; exact Hx').
          qc_lra.
        - assert (H : x / s < 0)
            by (apply div_lt; [exact Hs|]; rewrite Qcmult_0_l; exact Hx).
          qc_lra. }
      rewrite T0, T1, Z2Qc_inj_0.
      replace (x + s - s * 0) with (x + s) by ring.
      replace (x - s * 0) with x by ring.
      unfold ltb, zero.
      assert (Hxs : 0 < x + s) by qc_lra.
      destruct (Qc_eq_dec (x + s) 0) as [E|_];
        [exfalso; rewrite E in Hxs; revert Hxs; apply Qcle_not_lt, Qcle_refl|].
      destruct (Qc_eq_dec x 0) as [E|_];
        [exfalso; rewrite E in Hx; revert Hx; apply Qcle_not_lt, Qcle_refl|].
      destruct (Qclt_le_dec s 0) as [H|_]; [exfalso; qc_lra|].
      destruct (Qclt_le_dec (x + s) 0) as [H|_]; [exfalso; qc_lra|].
      destruct (Qclt_le_dec x 0) as [_|H]; [|exfalso; qc_lra].
      cbn [negb andb Bool.eqb]. unfold F32.add. rewrite Hf. reflexivity.
    + rewrite Hsame; [reflexivity|]. apply trunc_add_1. right.
      assert (H : x / s <= -(1))
        by (apply div_le; [exact Hs|]; replace (-(1) * s) with (- s) by ring; exact Hx').
      qc_lra.
  - rewrite Hsame; [reflexivity|]. apply trunc_add_1. left.
    apply div_ge; [exact Hs|]. rewrite Qcmult_0_l. exact Hx.
Qed.

Lemma local_coord_shift (x s : Qc) :
  0 < s -> is_f32 (x + s) ->
  MultiscalePointDecoder.local_coord (s_add (Fin x) (Fin s)) (Fin s)
    = MultiscalePointDecoder.local_coord (Fin x) (Fin s).
Proof.
  intros Hs Hf. unfold MultiscalePointDecoder.local_coord.
  cbn [s_sub s_div s_rem s_add s_half F32.scalar].
  rewrite (rem_shift x s Hs Hf). reflexivity.
Qed.

End F32_round.

(** The operations of [F32] give what the Standard Library's binary32
    operations give, on all pairs of the operands listed. *)
Lemma F32_agrees_with_binary32 :
  F32_SpecFloat.agree (SpecFloat.SFadd 24 128) F32.add = true /\
  F32_SpecFloat.agree (SpecFloat.SFsub 24 128) F32.sub = true /\
  F32_SpecFloat.agree (SpecFloat.SFmul 24 128) F32.mul = true /\
  F32_SpecFloat.agree (SpecFloat.SFdiv 24 128) F32.div = true.
Proof. repeat split; vm_compute; reflexivity. Qed.

(** ** C6: the positional feature of a depth *)

Lemma lookup_map {A B} (f : A -> B) (l : list A) (i : nat) :
  map f l !! i = option_map f (l !! i).
Proof.
  revert i; induction l as [|x l IH]; intros [|i]; try reflexivity. apply IH.
Qed.

Lemma imap_imap {A B C} (f : nat -> B -> C) (g : nat -> A -> B) (l : list A) :
  imap f (imap g l) = imap (fun a x => f a (g a x)) l.
Proof.
  revert f g; induction l as [|x l IH]; intros f g; [reflexivity|].
  cbn [imap]. f_equal. apply IH.
Qed.

Section Pos_feat.
Context {T : Type} `{Scalar T}.
Import MultiscalePointDecoder.

(** Every entry of one depth's positional feature is [local_coord] of the
    query coordinate at the same place. *)
Lemma entry_pos_encode (vs : nat -> T) (xyz : Tensor T) (i a : nat) (x : T) :
  entry xyz i a = Some x ->
  entry (pos_encode vs xyz) i a = Some (local_coord x (vs a)).
Proof.
  unfold entry, pos_encode; cbn [rows]. rewrite lookup_map.
  destruct (rows xyz !! i) as [r|]; [|discriminate]. cbn [option_map].
  intros Ha. rewrite list_lookup_imap, Ha. reflexivity.
Qed.

Lemma pos_feat_grid (xyz : Tensor T) (svh : SparseFeatureHierarchy T)
    (did : Z) (grid : Grid T) :
  list_getitem (grids svh) did = Ok (Some grid) ->
  pos_feat xyz svh did = Ok (pos_encode (voxel_size grid) xyz).
Proof. intros Hg. unfold pos_feat. rewrite Hg. reflexivity. Qed.

Lemma pos_encode_has_shape (vs : nat -> T) (xyz : Tensor T) :
  has_shape (pos_encode vs xyz) (nrows xyz) (ncols xyz).
Proof.
  split; [|reflexivity]. unfold nrows, pos_encode; cbn [rows]. apply length_map.
Qed.

End Pos_feat.

Section Pos_feat_values.
Import MultiscalePointDecoder.
Local Open Scope Qc_scope.

Lemma pos_encode_translate (vs : nat -> Qc) (xyz : Tensor Qc) :
  (forall a, vs a <> 0) ->
  pos_encode vs (translate vs xyz) = pos_encode vs xyz.
Proof.
  intros Hvs. unfold pos_encode, translate; cbn [rows ncols]. f_equal.
  rewrite map_map. apply map_ext. intros r. rewrite imap_imap.
  apply imap_ext. intros a x _. cbn beta.
  apply (local_coord_exact x (vs a) (Hvs a)).
Qed.

(** C6: the positional feature that the decoder computes for a depth with
    a grid has the shape of the queries and holds [(x % s) / s - 0.5] for
    every query coordinate [x], with [s] the voxel size along its axis.

    Without rounding, for voxel sizes other than zero: every entry lies in
    [[-1/2, 1/2)], and the feature is the same for the queries moved by
    the voxel size.

    In single precision, for finite coordinates and voxel sizes above
    zero: every entry is finite and lies in the closed interval
    [[-1/2, 1/2]], and the feature is the same for the queries moved by
    the voxel size when that sum is computed without rounding. *)
Theorem pos_feat_local_coord :
  (forall (xyz : Tensor Qc) (svh : SparseFeatureHierarchy Qc) (did : Z) (grid : Grid Qc),
     list_getitem (grids svh) did = Ok (Some grid) ->
     (forall a, voxel_size grid a <> 0) ->
     exists p,
       pos_feat xyz svh did = Ok p /\
       has_shape p (nrows xyz) (ncols xyz) /\
       (forall i a x, entry xyz i a = Some x ->
          exists y, entry p i a = Some y /\
                    y = QcScalar.rem x (voxel_size grid a) / voxel_size grid a
                        - QcScalar.half /\
                    - QcScalar.half <= y /\ y < QcScalar.half) /\
       pos_feat (translate (voxel_size grid) xyz) svh did = Ok p) /\
  (forall (xyz : Tensor F32.t) (svh : SparseFeatureHierarchy F32.t) (did : Z)
          (grid : Grid F32.t),
     list_getitem (grids svh) did = Ok (Some grid) ->
     (forall a, exists s, voxel_size grid a = F32.Fin s /\ F32.is_f32 s /\ 0 < s) ->
     exists p,
       pos_feat xyz svh did = Ok p /\
       has_shape p (nrows xyz) (ncols xyz) /\
       (forall i a x, entry xyz i a = Some (F32.Fin x) -> F32.is_f32 x ->
          exists y, entry p i a = Some (F32.Fin y) /\
                    F32.sub (F32.div (F32.rem (F32.Fin x) (voxel_size grid a))
                                     (voxel_size grid a)) F32.half = F32.Fin y /\
                    - QcScalar.half <= y /\ y <= QcScalar.half) /\
       (exact_shift (voxel_size grid) xyz ->
        pos_feat (translate (voxel_size grid) xyz) svh did = Ok p)).
Proof.
  split.
  - intros xyz svh did grid Hg Hvs.
    exists (pos_encode (voxel_size grid) xyz).
    split; [apply pos_feat_grid, Hg|]. split; [apply pos_encode_has_shape|]. split.
    + intros i a x Hx. eexists. split; [apply entry_pos_encode, Hx|].
      split; [reflexivity|]. apply (local_coord_exact x _ (Hvs a)).
    + rewrite (pos_feat_grid _ _ _ _ Hg). f_equal. apply pos_encode_translate, Hvs.
  - intros xyz svh did grid Hg Hvs.
    exists (pos_encode (voxel_size grid) xyz).
    split; [apply pos_feat_grid, Hg|]. split; [apply pos_encode_has_shape|]. split.
    + intros i a x Hx _. destruct (Hvs a) as (s & Es & Hf & Hs).
      destruct (local_coord_closed x s Hf Hs) as (w & Ew & Hl & Hu).
      exists w. rewrite (entry_pos_encode _ _ _ _ _ Hx), Es, Ew.
      split; [reflexivity|]. split; [|split; assumption].
      rewrite <- Ew. reflexivity.
    + intros Hex. rewrite (pos_feat_grid _ _ _ _ Hg). f_equal.
      unfold pos_encode, translate; cbn [rows ncols]. f_equal.
      apply list_eq. intros i. rewrite !lookup_map.
      destruct (rows xyz !! i) as [r|] eqn:Er; [|reflexivity]. cbn [option_map]. f_equal.
      rewrite imap_imap. apply imap_ext. intros a x Hx. cbn beta.
      destruct (Hvs a) as (s & Es & _ & Hs).
      destruct (Hex i a x) as (q & s' & -> & Es' & Hq).
      { unfold entry. rewrite Er. exact Hx. }
      rewrite Es in Es' |- *. injection Es' as <-.
      apply local_coord_shift; assumption.
Qed.

(** C6 as the specification words it fails in single precision: for the
    query 2^-30 below the origin and unit voxels the entry is 1/2, outside
    [[-1/2, 1/2)]; and the entry for the query at the float32 value of
    1/10 is not the entry for that query moved by the voxel size. *)
Lemma pos_feat_float32_reaches_half :
  F32.is_f32b (- F32.pow2 (-30)) = true /\
  (exists p y,
     pos_feat Examples.x_tiny Examples.svh_unit 0 = Ok p /\
     entry p 0 0 = Some y /\
     F32.leb F32.half y = true /\ F32.ltb y F32.half = false) /\
  pos_feat (translate (voxel_size Examples.grid_unit) Examples.x_tenth) Examples.svh_unit 0
    <> pos_feat Examples.x_tenth Examples.svh_unit 0.
Proof.
  split; [vm_compute; reflexivity|]. split.
  - eexists. eexists. split; [reflexivity|]. split; [reflexivity|].
    split; vm_compute; reflexivity.
  - intros E. vm_compute in E. discriminate E.
Qed.

End Pos_feat_values.

(** ** C4: a depth without a grid contributes zeros *)


Lemma list_getitem_insert_position {A} (l : list A) (i : Z) (k : nat) (x : A) :
  position (length l) i <> Z.of_nat k ->
  list_getitem (<[k:=x]> l) i = list_getitem l i.
Proof.
  unfold list_getitem, position. rewrite length_insert. cbv zeta.
  set (j := if (i <? 0)%Z then (i + Z.of_nat (length l))%Z else i).
  intros Hne. destruct (Z.ltb_spec j 0) as [Hneg|Hpos]; [reflexivity|].
  rewrite list_lookup_insert_ne by lia. reflexivity.
Qed.

Lemma list_getitem_insert_same {A} (l : list A) (k : nat) (x a : A) :
  list_getitem l (Z.of_nat k) = Ok a ->
  list_getitem (<[k:=x]> l) (Z.of_nat k) = Ok x.
Proof.
  unfold list_getitem. rewrite length_insert.
  destruct (Z.ltb_spec (Z.of_nat k) 0) as [Hneg|_]; [lia|].
  destruct (Z.ltb_spec (Z.of_nat k) 0) as [Hneg|_]; [lia|].
  rewrite Nat2Z.id.
  destruct (l !! k) as [a'|] eqn:Ea; [|discriminate]. intros _.
  rewrite list_lookup_insert_eq by (apply lookup_lt_is_Some; eauto). reflexivity.
Qed.

Lemma list_getitem_insert_nat_ne {A} (l : list A) (k k' : nat) (x : A) :
  k' <> k ->
  list_getitem (<[k:=x]> l) (Z.of_nat k') = list_getitem l (Z.of_nat k').
Proof.
  intros Hne. apply list_getitem_insert_position. unfold position.
  destruct (Z.ltb_spec (Z.of_nat k') 0) as [Hneg|_]; lia.
Qed.

Section Absent_depth.
Context {T : Type} `{Scalar T}.
Import MultiscalePointDecoder.

(** The depths other than [k] sample the same features whether position
    [k] of the hierarchy is empty or holds a grid that samples zeros. *)
Lemma sample_feat_zero_grid
    (dec : MultiscalePointDecoder.t T) (xyz : Tensor T)
    (svh : SparseFeatureHierarchy T) (multiscale_feat : gmap Z (Tensor T))
    (k : nat) (g0 : Grid T) (F0 : Tensor T) :
  list_getitem (grids svh) (Z.of_nat k) = Ok None ->
  sample_trilinear g0 xyz F0 = Ok (zeros (nrows xyz) (c_each_dim dec)) ->
  mapM (sample_feat dec xyz svh multiscale_feat) (range (multiscale_depths dec))
    = mapM (sample_feat dec xyz {| grids := <[k := Some g0]> (grids svh) |}
                        (<[Z.of_nat k := F0]> multiscale_feat))
           (range (multiscale_depths dec)).
Proof.
  intros Hnone Hzero.
  apply mapM_ext. intros did Hin. apply in_range in Hin as (k' & -> & Hk').
  destruct (Nat.eq_dec k' k) as [->|Hne].
  - unfold sample_feat; cbn [grids]. rewrite Hnone.
    rewrite (list_getitem_insert_same _ _ _ _ Hnone). cbn [bind].
    unfold dict_getitem. rewrite lookup_insert_eq. cbn [bind]. symmetry. exact Hzero.
  - unfold sample_feat; cbn [grids].
    rewrite list_getitem_insert_nat_ne by exact Hne.
    unfold dict_getitem. rewrite lookup_insert_ne by lia. reflexivity.
Qed.

(** C4, for a depth that the positional encoding does not use: let [k] be
    a depth below [multiscale_depths] whose grid is [None] and to which no
    entry of [coords_depths] refers.  The sampling step yields the zero
    tensor of shape (number of queries, [c_each_dim]) for it, and the
    decoder's result is the one it gives for the hierarchy in which depth
    [k] holds a grid that samples exactly that zero tensor, from features
    [F0]: the same output, or the same failure.  On well-shaped input it
    is an output. *)
Theorem absent_depth_zero_feature
    (dec : MultiscalePointDecoder.t T) (p_dim hidden : nat) (xyz : Tensor T)
    (svh : SparseFeatureHierarchy T) (multiscale_feat : gmap Z (Tensor T))
    (k : nat) (g0 : Grid T) (F0 : Tensor T) :
  k < multiscale_depths dec ->
  list_getitem (grids svh) (Z.of_nat k) = Ok None ->
  coords_avoid dec svh k ->
  sample_trilinear g0 xyz F0 = Ok (zeros (nrows xyz) (c_each_dim dec)) ->
  let svh' := {| grids := <[k := Some g0]> (grids svh) |} in
  let feat' := <[Z.of_nat k := F0]> multiscale_feat in
  sample_feat dec xyz svh multiscale_feat (Z.of_nat k)
    = Ok (zeros (nrows xyz) (c_each_dim dec)) /\
  forward dec xyz svh multiscale_feat = forward dec xyz svh' feat' /\
  (decoder_ok p_dim hidden dec -> ncols xyz = p_dim -> coords_depths dec <> [] ->
   coords_grids_present dec svh -> samples_ok dec xyz svh multiscale_feat ->
   exists out, forward dec xyz svh multiscale_feat = Ok out /\
               forward dec xyz svh' feat' = Ok out).
Proof.
  intros Hk Hnone Havoid Hzero svh' feat'.
  assert (Hf : forward dec xyz svh multiscale_feat = forward dec xyz svh' feat').
  { unfold forward.
    rewrite (sample_feat_zero_grid dec xyz svh multiscale_feat k g0 F0 Hnone Hzero).
    fold svh' feat'.
    replace (mapM (pos_feat xyz svh') (coords_depths dec))
      with (mapM (pos_feat xyz svh) (coords_depths dec)); [reflexivity|].
    apply mapM_ext. intros did Hin. unfold coords_avoid in Havoid.
    rewrite List.Forall_forall in Havoid.
    unfold pos_feat, svh'; cbn [grids].
    rewrite (list_getitem_insert_position _ _ _ _ (Havoid did Hin)). reflexivity. }
  split; [|split].
  - unfold sample_feat. rewrite Hnone. reflexivity.
  - exact Hf.
  - intros Hok Hxyz Hcoords Hgrids Hsamples.
    destruct (forward_total dec p_dim hidden xyz svh multiscale_feat Hok Hxyz Hcoords)
      as (out & E & _); [lia | exact Hgrids | exact Hsamples |].
    exists out. split; [exact E|]. rewrite <- Hf. exact E.
Qed.

End Absent_depth.

(** C4 as the specification words it fails for a depth that the
    positional encoding uses: a decoder constructed with the default
    [coords_depths] (depths 0 and 1) raises [AttributeError] on a hierarchy
    without depth 1, where the sampling step would substitute zeros, and
    returns an output once depth 1 holds a grid that samples those zeros. *)
Lemma absent_depth_in_coords_raises :
  exists dec,
    MultiscalePointDecoder.init 1 2 3 1 1 1 "cat" None None Examples.draws_half = Ok dec /\
    1 < MultiscalePointDecoder.multiscale_depths dec /\
    list_getitem (grids Examples.svh2) 1 = Ok None /\
    sample_trilinear Examples.grid_zero Examples.pts3 (zeros 2 1)
      = Ok (zeros (nrows Examples.pts3) (MultiscalePointDecoder.c_each_dim dec)) /\
    MultiscalePointDecoder.forward dec Examples.pts3 Examples.svh2 Examples.feat2
      = Err AttributeError /\
    exists out,
      MultiscalePointDecoder.forward dec Examples.pts3
        {| grids := <[1%nat := Some Examples.grid_zero]> (grids Examples.svh2) |}
        (<[1%Z := zeros 2 1]> Examples.feat2) = Ok out.
Proof.
  eexists. split; [reflexivity|].
  split; [cbn; lia|]. split; [reflexivity|]. split; [reflexivity|].
  split; [reflexivity|]. vm_compute. eexists. reflexivity.
Qed.

(** ** C2: points without a voxel are masked out *)

Lemma map_delete {A B} (f : A -> B) (i : nat) (l : list A) :
  map f (delete i l) = delete i (map f l).
Proof.
  revert i; induction l as [|a l IH]; intros [|i]; simpl; try reflexivity.
  f_equal. apply IH.
Qed.

Lemma mask_select_delete {A} (l : list A) (m : list bool) (i : nat) :
  m !! i = Some false ->
  mask_select (delete i l) (delete i m) = mask_select l m.
Proof.
  unfold mask_select.
  revert l m; induction i as [|i IH]; intros l m Hm.
  - destruct m as [|b m]; [discriminate|]. injection Hm as ->.
    destruct l as [|a l]; reflexivity.
  - destruct m as [|b m]; [discriminate|]. simpl in Hm.
    destruct l as [|a l]; [reflexivity|].
    change (delete (S i) (a :: l)) with (a :: delete i l).
    change (delete (S i) (b :: m)) with (b :: delete i m).
    simpl. destruct b; simpl; rewrite (IH l m Hm); reflexivity.
Qed.

Section Masking.
Context {T : Type} `{Scalar T}.
Import PointEncoder.

Lemma voxel_ids_drop (grid : Grid T) (xyz : Tensor T) (i : nat) :
  voxel_ids grid (drop_row i xyz) = delete i (voxel_ids grid xyz).
Proof.
  unfold voxel_ids, map_rows, drop_row; cbn [rows]. rewrite !map_delete. reflexivity.
Qed.

Lemma voxel_ids_length (grid : Grid T) (xyz : Tensor T) :
  length (voxel_ids grid xyz) = nrows xyz.
Proof. unfold voxel_ids, map_rows, nrows; cbn [rows]. rewrite !length_map. reflexivity. Qed.

Lemma mask_of_delete (vid : list Z) (i : nat) :
  mask_of (delete i vid) = delete i (mask_of vid).
Proof. apply map_delete. Qed.

Lemma mask_of_sentinel (vid : list Z) (i : nat) :
  vid !! i = Some (-1)%Z -> mask_of vid !! i = Some false.
Proof.
  revert i; induction vid as [|v vid IH]; intros [|i] Hi; simpl in *; try discriminate.
  - injection Hi as ->. reflexivity.
  - apply IH. exact Hi.
Qed.

Lemma tensor_mask_drop (t : Tensor T) (m : list bool) (i : nat) :
  length m = nrows t ->
  m !! i = Some false ->
  tensor_mask (drop_row i t) (delete i m) = tensor_mask t m.
Proof.
  intros Hlen Hm. unfold tensor_mask, drop_row, nrows in *; cbn [rows ncols].
  rewrite !length_delete, Hlen, !Nat.eqb_refl.
  - rewrite mask_select_delete by exact Hm. reflexivity.
  - apply lookup_lt_is_Some. rewrite <- Hlen. apply lookup_lt_is_Some. eauto.
  - eauto.
Qed.

(** C2: a point whose voxel index is the sentinel -1 can be taken out of
    the input (its position, and its feature when features are given, one
    per point) without any change to what the forward pass returns. *)
Theorem masked_point_no_influence
    (enc : PointEncoder.t T) (pts_xyz : Tensor T) (pts_feature : option (Tensor T))
    (svh : SparseFeatureHierarchy T) (depth : Z) (grid : Grid T) (i : nat) :
  list_getitem (grids svh) depth = Ok (Some grid) ->
  voxel_ids grid pts_xyz !! i = Some (-1)%Z ->
  match pts_feature with
  | Some f => nrows f = nrows pts_xyz
  | None => True
  end ->
  forward enc (drop_row i pts_xyz) (option_map (drop_row i) pts_feature) svh depth
    = forward enc pts_xyz pts_feature svh depth.
Proof.
  intros Hg Hi Hf. unfold forward. rewrite Hg. cbn [bind].
  pose proof (mask_of_sentinel _ _ Hi) as Hm.
  pose proof (voxel_ids_length grid pts_xyz) as Hlen.
  rewrite voxel_ids_drop, mask_of_delete, mask_select_delete by exact Hm.
  assert (Hxyz : tensor_mask (local_xyz grid (drop_row i pts_xyz))
                   (delete i (mask_of (voxel_ids grid pts_xyz)))
                 = tensor_mask (local_xyz grid pts_xyz) (mask_of (voxel_ids grid pts_xyz))).
  { rewrite <- (tensor_mask_drop (local_xyz grid pts_xyz) _ i).
    - f_equal. unfold local_xyz, map_tensor, map_rows, drop_row; cbn [rows ncols].
      rewrite !map_delete. reflexivity.
    - unfold mask_of, local_xyz, map_tensor, map_rows, nrows; cbn [rows].
      unfold voxel_ids, map_rows; cbn [rows]. rewrite !length_map. reflexivity.
    - exact Hm. }
  rewrite Hxyz.
  destruct pts_feature as [f|]; cbn [option_map]; [|reflexivity].
  rewrite tensor_mask_drop; [reflexivity | | exact Hm].
  unfold mask_of. rewrite length_map, Hlen. symmetry. exact Hf.
Qed.

End Masking.

(** ** C8: every voxel gets a row *)

Lemma mask_select_length {A B} (l1 : list A) (l2 : list B) (m : list bool) :
  length l1 = length m -> length l2 = length m ->
  length (mask_select l1 m) = length (mask_select l2 m).
Proof.
  unfold mask_select. rewrite !length_map.
  revert l1 l2; induction m as [|b m IH]; intros [|a l1] [|c l2] H1 H2;
    simpl in *; try discriminate; try reflexivity.
  destruct b; simpl; [f_equal|]; apply IH; lia.
Qed.

Lemma mask_select_map {A} (p : A -> bool) (l : list A) :
  mask_select l (map p l) = List.filter p l.
Proof.
  unfold mask_select. induction l as [|a l IH]; simpl; [reflexivity|].
  destruct (p a); simpl; rewrite IH; reflexivity.
Qed.

Lemma tabulate_lookup {A} (n : nat) (f : nat -> A) (k : nat) :
  k < n -> tabulate n f !! k = Some (f k).
Proof.
  intros Hk. unfold tabulate. change (map f (seq 0 n)) with (f <$> seq 0 n).
  rewrite list_lookup_fmap, lookup_seq_lt by exact Hk. reflexivity.
Qed.

Lemma fold_left_map2_length {A} (f : A -> A -> A) (g : list (list A)) (acc : list A) (c : nat) :
  length acc = c -> Forall (fun r => length r = c) g ->
  length (fold_left (map2 f) g acc) = c.
Proof.
  intros Hacc Hg. revert acc Hacc. induction Hg as [|r g Hr _ IH]; intros acc Hacc; simpl.
  - exact Hacc.
  - apply IH. rewrite map2_length. lia.
Qed.

Section Scatter.
Context {T : Type} `{Scalar T}.

Lemma group_In (src : list (list T)) (index : list Z) (k : nat) (r : list T) :
  In r (group src index k) -> In r src.
Proof.
  unfold group. rewrite in_map_iff. intros ([r' v] & <- & Hin).
  apply filter_In in Hin as [Hin _]. apply in_combine_l in Hin. exact Hin.
Qed.

Lemma group_empty (src : list (list T)) (index : list Z) (k : nat) :
  ~ In (Z.of_nat k) index -> group src index k = [].
Proof.
  unfold group. revert src; induction index as [|v index IH]; intros [|r src] Hk;
    simpl; try reflexivity.
  destruct (Z.eqb_spec v (Z.of_nat k)) as [->|Hne].
  - exfalso. apply Hk. left. reflexivity.
  - apply IH. intros Hin. apply Hk. right. exact Hin.
Qed.

Lemma scatter_max_shape (src : Tensor T) (index : list Z) (n : nat) :
  length index = nrows src -> index_in_range index n = true ->
  exists t, scatter_max src index n = Ok t /\ has_shape t n (ncols src) /\
            forall k, k < n -> ~ In (Z.of_nat k) index ->
                      rows t !! k = Some (repeat s_zero (ncols src)).
Proof.
  intros Hlen Hin. unfold scatter_max. rewrite Hlen, Nat.eqb_refl, Hin. cbn [negb].
  eexists. split; [reflexivity|]. split.
  - split; [|reflexivity]. unfold nrows; cbn [rows]. apply tabulate_length.
  - intros k Hk Hno. cbn [rows]. rewrite tabulate_lookup by exact Hk.
    rewrite group_empty by exact Hno. reflexivity.
Qed.

Lemma mean_rows_length (c : nat) (g : list (list T)) :
  Forall (fun r => length r = c) g -> length (mean_rows c g) = c.
Proof.
  intros Hg. unfold mean_rows. rewrite length_map.
  apply fold_left_map2_length; [apply repeat_length | exact Hg].
Qed.

Lemma mean_rows_empty `{!ExactScalar T} (c : nat) : mean_rows c [] = repeat s_zero c.
Proof.
  unfold mean_rows. cbn [fold_left length Nat.max s_of_nat].
  rewrite map_repeat_const, s_div_0_1. reflexivity.
Qed.

Lemma scatter_mean_shape `{!ExactScalar T} (src : Tensor T) (index : list Z) (n : nat) :
  length index = nrows src -> index_in_range index n = true -> wf_tensor src ->
  exists t, scatter_mean src index n = Ok t /\ has_shape t n (ncols src) /\ wf_tensor t /\
            forall k, k < n -> ~ In (Z.of_nat k) index ->
                      rows t !! k = Some (repeat s_zero (ncols src)).
Proof.
  intros Hlen Hin Hwf. unfold scatter_mean. rewrite Hlen, Nat.eqb_refl, Hin. cbn [negb].
  eexists. split; [reflexivity|]. split; [|split].
  - split; [|reflexivity]. unfold nrows; cbn [rows]. apply tabulate_length.
  - unfold wf_tensor; cbn [rows ncols]. apply List.Forall_forall. intros r Hr.
    unfold tabulate in Hr. apply in_map_iff in Hr as (k & <- & _).
    apply mean_rows_length. apply List.Forall_forall. intros r Hr.
    apply group_In in Hr. unfold wf_tensor in Hwf.
    rewrite List.Forall_forall in Hwf. apply Hwf. exact Hr.
  - intros k Hk Hno. cbn [rows]. rewrite tabulate_lookup by exact Hk.
    rewrite group_empty by exact Hno. rewrite mean_rows_empty. reflexivity.
Qed.

Lemma scatter_mean_Ok `{!ExactScalar T} (src t : Tensor T) (index : list Z) (n : nat) :
  scatter_mean src index n = Ok t ->
  has_shape t n (ncols src) /\
  forall k, k < n -> ~ In (Z.of_nat k) index ->
            rows t !! k = Some (repeat s_zero (ncols src)).
Proof.
  unfold scatter_mean.
  destruct (negb (length index =? nrows src)); [discriminate|].
  destruct (negb (index_in_range index n)); [discriminate|].
  intros [= <-]. split.
  - split; [|reflexivity]. unfold nrows; cbn [rows]. apply tabulate_length.
  - intros k Hk Hno. cbn [rows]. rewrite tabulate_lookup by exact Hk.
    rewrite group_empty by exact Hno. rewrite mean_rows_empty. reflexivity.
Qed.

Lemma index_rows_shape (t : Tensor T) (index : list Z) (n : nat) :
  nrows t = n -> index_in_range index n = true ->
  exists t', index_rows t index = Ok t' /\ has_shape t' (length index) (ncols t).
Proof.
  intros Hn Hin. unfold index_rows.
  destruct (mapM_total (list_getitem (rows t)) (fun _ => True) index) as (rs & -> & _ & Hlen).
  - intros v Hv. unfold index_in_range in Hin. rewrite forallb_forall in Hin.
    specialize (Hin v Hv). apply andb_true_iff in Hin as [H0 H1].
    apply Z.leb_le in H0. apply Z.ltb_lt in H1.
    destruct (list_getitem_nat (rows t) (Z.to_nat v)) as (a & Ea & _).
    + unfold nrows in Hn. lia.
    + rewrite Z2Nat.id in Ea by exact H0. eauto.
  - cbn [bind]. eexists. split; [reflexivity|]. split; [exact Hlen | reflexivity].
Qed.

Lemma affine_length (L : Linear T) (x : list T) (c : nat) :
  length (weight L) = c ->
  match bias L with Some b => length b = c | None => True end ->
  length (affine L x) = c.
Proof.
  intros HW Hb. unfold affine. destruct (bias L) as [b|].
  - rewrite length_map, length_combine. lia.
  - rewrite length_map. exact HW.
Qed.

End Scatter.

Section Coverage.
Context {T : Type} `{Scalar T}.
Import PointEncoder.

Lemma surviving_ids_in_range (grid : Grid T) (xyz : Tensor T) :
  grid_index_ok grid ->
  index_in_range (surviving_ids grid xyz) (num_voxels grid) = true.
Proof.
  intros Hok. unfold surviving_ids, mask_of. rewrite mask_select_map.
  unfold index_in_range. apply forallb_forall. intros v Hv.
  apply filter_In in Hv as [Hin Hne]. unfold voxel_ids in Hin.
  apply in_map_iff in Hin as (r & <- & _).
  destruct (Hok (map s_round_int r)) as [E|[H0 H1]].
  - rewrite E in Hne. discriminate.
  - apply andb_true_iff. split; [apply Z.leb_le | apply Z.ltb_lt]; assumption.
Qed.

Lemma surviving_ids_In (grid : Grid T) (xyz : Tensor T) (k : nat) :
  In (Z.of_nat k) (surviving_ids grid xyz) <-> In (Z.of_nat k) (voxel_ids grid xyz).
Proof.
  unfold surviving_ids, mask_of. rewrite mask_select_map, filter_In. split.
  - intros [Hin _]. exact Hin.
  - intros Hin. split; [exact Hin|].
    destruct (Z.eqb_spec (Z.of_nat k) (-1)) as [E|_]; [lia | reflexivity].
Qed.

Lemma tensor_mask_shape (t : Tensor T) (m : list bool) :
  length m = nrows t ->
  exists t', tensor_mask t m = Ok t' /\
             has_shape t' (length (mask_select m m)) (ncols t).
Proof.
  intros Hlen. unfold tensor_mask. rewrite Hlen, Nat.eqb_refl.
  eexists. split; [reflexivity|]. split; [|reflexivity].
  unfold nrows in *; cbn [rows]. apply mask_select_length; congruence.
Qed.

Lemma pool_step_shape (vid : list Z) (nv : nat) (pf : Tensor T)
    (block : ResnetBlockFC.t T) (h : nat) :
  block_ok (2 * h) h block ->
  has_shape pf (length vid) h ->
  index_in_range vid nv = true ->
  exists y, pool_step vid nv pf block = Ok y /\ has_shape y (length vid) h.
Proof.
  intros Hb Hpf Hin. unfold pool_step. pose proof Hpf as [Hn Hc].
  destruct (scatter_max_shape pf vid nv) as (pooled & -> & [Hpn Hpc] & _);
    [congruence | exact Hin |].
  cbn [bind].
  destruct (index_rows_shape pooled vid nv Hpn Hin) as (pooled' & -> & [Hpn' Hpc']).
  cbn [bind].
  destruct (cat1_shape [pf; pooled'] (length vid)) as (x & -> & Hx).
  { discriminate. }
  { repeat constructor; assumption. }
  cbn [bind]. apply (block_forward_shape block (2 * h) h); [exact Hb|].
  cbn [map list_sum] in Hx. rewrite Hc, Hpc', Hpc, Hc in Hx.
  replace (2 * h) with (h + (h + 0)) by lia. exact Hx.
Qed.

(** Whatever the forward pass returns has [num_voxels] rows, with a zero row
    for every voxel that no point is routed to. *)
Lemma forward_Ok_rows `{!ExactScalar T}
    (enc : PointEncoder.t T) (pts_xyz : Tensor T) (pts_feature : option (Tensor T))
    (svh : SparseFeatureHierarchy T) (depth : Z) (grid : Grid T) (c : Tensor T) :
  list_getitem (grids svh) depth = Ok (Some grid) ->
  forward enc pts_xyz pts_feature svh depth = Ok c ->
  nrows c = num_voxels grid /\
  forall k, k < num_voxels grid -> ~ In (Z.of_nat k) (voxel_ids grid pts_xyz) ->
            rows c !! k = Some (repeat s_zero (ncols c)).
Proof.
  intros Hg E. unfold forward in E. rewrite Hg in E. cbn [bind] in E.
  do 2 inv_bind E. destruct (blocks enc) as [|block0 rest]; [discriminate|].
  do 3 inv_bind E.
  apply scatter_mean_Ok in E as [[Hn Hc] Hzero]. split; [exact Hn|].
  intros k Hk Hno. rewrite Hc. apply Hzero; [exact Hk|].
  change (~ In (Z.of_nat k) (surviving_ids grid pts_xyz)).
  rewrite surviving_ids_In. exact Hno.
Qed.

(** C8: every tensor the forward pass returns has exactly [num_voxels]
    rows, the row of a voxel that no point is routed to being all zeros.
    When the encoder's layers fit its input and the grid's lookup answers
    -1 or a row index below [num_voxels], the forward pass does return:
    [num_voxels] rows of [c_dim] entries each.  Along the way the max-pool
    over the same voxel indices returns too, with a zero row for every
    voxel without points. *)
Theorem forward_covers_voxels `{!ExactScalar T}
    (enc : PointEncoder.t T) (dim : nat)
    (pts_xyz : Tensor T) (pts_feature : option (Tensor T))
    (svh : SparseFeatureHierarchy T) (depth : Z) (grid : Grid T) :
  encoder_ok dim enc ->
  encoder_input_ok dim pts_xyz pts_feature ->
  list_getitem (grids svh) depth = Ok (Some grid) ->
  grid_index_ok grid ->
  let vid := surviving_ids grid pts_xyz in
  (forall c, forward enc pts_xyz pts_feature svh depth = Ok c ->
     nrows c = num_voxels grid /\
     forall k, k < num_voxels grid -> ~ In (Z.of_nat k) (voxel_ids grid pts_xyz) ->
               rows c !! k = Some (repeat s_zero (ncols c))) /\
  (exists c,
     forward enc pts_xyz pts_feature svh depth = Ok c /\
     has_shape c (num_voxels grid) (c_dim enc) /\
     wf_tensor c /\
     forall k, k < num_voxels grid -> ~ In (Z.of_nat k) (voxel_ids grid pts_xyz) ->
               rows c !! k = Some (repeat s_zero (c_dim enc))) /\
  (forall src, nrows src = length vid ->
     exists pooled,
       scatter_max src vid (num_voxels grid) = Ok pooled /\
       has_shape pooled (num_voxels grid) (ncols src) /\
       forall k, k < num_voxels grid -> ~ In (Z.of_nat k) (voxel_ids grid pts_xyz) ->
                 rows pooled !! k = Some (repeat s_zero (ncols src))).
Proof.
  intros (Hpi & Hpo & Hne & Hblocks & Hci & Hco & HcW & Hcb) Hinput Hg Hgrid vid.
  pose proof (surviving_ids_in_range grid pts_xyz Hgrid) as Hrange. fold vid in Hrange.
  assert (Hmask : length (mask_of (voxel_ids grid pts_xyz)) = nrows pts_xyz).
  { unfold mask_of. rewrite length_map. apply voxel_ids_length. }
  assert (Hvid : length (mask_select (mask_of (voxel_ids grid pts_xyz))
                                     (mask_of (voxel_ids grid pts_xyz))) = length vid).
  { unfold vid, surviving_ids. apply mask_select_length; [reflexivity|].
    unfold mask_of. rewrite length_map. reflexivity. }
  split; [intros c; apply forward_Ok_rows; exact Hg|].
  split.
  - unfold forward. rewrite Hg. cbn [bind].
    change (mask_select (voxel_ids grid pts_xyz) (mask_of (voxel_ids grid pts_xyz))) with vid.
    destruct (tensor_mask_shape (local_xyz grid pts_xyz) (mask_of (voxel_ids grid pts_xyz)))
      as (xyz' & -> & Hxyz').
    { rewrite Hmask. unfold local_xyz, map_tensor, map_rows, nrows; cbn [rows].
      rewrite !length_map. reflexivity. }
    rewrite Hvid in Hxyz'. cbn [bind].
    change (ncols (local_xyz grid pts_xyz)) with (ncols pts_xyz) in Hxyz'.
    assert (Hfeat : exists pf,
               match pts_feature with
               | Some f =>
                   do f <- tensor_mask f (mask_of (voxel_ids grid pts_xyz));
                   do xf <- cat1 [xyz'; f];
                   Linear_forward (fc_pos enc) xf
               | None => Linear_forward (fc_pos enc) xyz'
               end = Ok pf /\ has_shape pf (length vid) (2 * hidden_dim enc)).
    { unfold encoder_input_ok in Hinput. destruct pts_feature as [f|].
      - destruct Hinput as [Hfn Hfc].
        destruct (tensor_mask_shape f (mask_of (voxel_ids grid pts_xyz)))
          as (f' & -> & Hf'); [congruence|].
        rewrite Hvid in Hf'. cbn [bind].
        destruct (cat1_shape [xyz'; f'] (length vid)) as (xf & -> & Hxf).
        { discriminate. }
        { repeat constructor; [apply Hxyz' | apply Hf']. }
        cbn [bind map list_sum] in *.
        destruct Hxyz' as [_ Hxc]. destruct Hf' as [_ Hfc'].
        unfold list_sum in Hxf; cbn [fold_right] in Hxf.
        rewrite Hxc, Hfc', Nat.add_0_r, Hfc in Hxf.
        destruct (Linear_forward_shape (fc_pos enc) xf _ _ Hpi Hxf) as (pf & -> & Hpf & _).
        rewrite Hpo in Hpf. eauto.
      - rewrite Hinput in Hxyz'.
        destruct (Linear_forward_shape (fc_pos enc) xyz' _ _ Hpi Hxyz') as (pf & -> & Hpf & _).
        rewrite Hpo in Hpf. eauto. }
    destruct Hfeat as (pf & -> & Hpf). cbn [bind].
    destruct (blocks enc) as [|block0 rest]; [congruence|].
    apply Forall_cons_iff in Hblocks as [Hb0 Hrest].
    destruct (block_forward_shape block0 _ _ pf _ Hb0 Hpf) as (pf0 & -> & Hpf0).
    cbn [bind].
    destruct (foldM_invariant (pool_step vid (num_voxels grid))
                (fun t => has_shape t (length vid) (hidden_dim enc)) rest pf0)
      as (pf1 & -> & Hpf1); [|exact Hpf0|].
    { intros acc block Hin Hacc. rewrite List.Forall_forall in Hrest.
      apply pool_step_shape; [apply Hrest; exact Hin | exact Hacc | exact Hrange]. }
    cbn [bind].
    destruct (Linear_forward_shape (fc_c enc) pf1 _ _ Hci Hpf1) as (c & -> & [Hcn Hcc] & Hrows).
    cbn [bind]. rewrite Hco in Hcc.
    destruct (scatter_mean_shape c vid (num_voxels grid)) as (out & -> & Hos & Hwf & Hzero).
    { congruence. }
    { exact Hrange. }
    { unfold wf_tensor. rewrite Hrows, Hcc. apply List.Forall_forall. intros r Hr.
      apply in_map_iff in Hr as (x & <- & _). apply affine_length; assumption. }
    rewrite Hcc in *. exists out. split; [reflexivity|]. split; [exact Hos|].
    split; [exact Hwf|]. intros k Hk Hno. apply Hzero; [exact Hk|].
    unfold vid. rewrite surviving_ids_In. exact Hno.
  - intros src Hsrc.
    destruct (scatter_max_shape src vid (num_voxels grid)) as (pooled & E & Hs & Hzero);
      [congruence | exact Hrange |].
    exists pooled. split; [exact E|]. split; [exact Hs|].
    intros k Hk Hno. apply Hzero; [exact Hk|].
    unfold vid. rewrite surviving_ids_In. exact Hno.
Qed.

(** The constructor builds an encoder whose layers fit together. *)
Lemma init_encoder_ok (dim c hidden nb : nat) (rnd : nat -> Draw T) :
  0 < nb -> encoder_ok dim (init dim c hidden nb rnd).
Proof.
  intros Hnb. unfold encoder_ok, init. cbn [fc_pos blocks fc_c hidden_dim PointEncoder.c_dim].
  repeat split.
  - destruct nb; [lia | discriminate].
  - apply List.Forall_forall. intros blk Hb. unfold tabulate in Hb.
    apply in_map_iff in Hb as (k & <- & _).
    apply (block_init_ok (2 * hidden) (Some hidden) None).
  - cbn [nn_Linear weight]. apply tabulate_length.
  - cbn [nn_Linear bias]. apply tabulate_length.
Qed.

End Coverage.

(** ** The results on concrete inputs *)

Section Runs.
Import Examples.
Local Open Scope Qc_scope.

Lemma grid2_index_ok : grid_index_ok grid2.
Proof.
  intros ijk. cbn [ijk_to_index grid2 num_voxels]. unfold lookup2.
  destruct ijk as [|i [|j [|k [|? ?]]]]; try (left; reflexivity).
  destruct (_ && _); [right; lia|].
  destruct (_ && _); [right; lia|].
  left; reflexivity.
Qed.

Lemma half_neq_0 : QcScalar.half <> 0.
Proof. intros E. apply (f_equal this) in E. vm_compute in E. discriminate E. Qed.

(** C2 on three points with features, the second outside every voxel. *)
Lemma masked_point_no_influence_witness :
  PointEncoder.voxel_ids grid2 pts3 !! 1%nat = Some (-1)%Z /\
  PointEncoder.forward encoder2f (drop_row 1 pts3) (Some (drop_row 1 feats3)) svh2 0
    = PointEncoder.forward encoder2f pts3 (Some feats3) svh2 0.
Proof.
  split; [vm_compute; reflexivity|].
  apply (masked_point_no_influence encoder2f pts3 (Some feats3) svh2 0 grid2 1).
  - reflexivity.
  - vm_compute; reflexivity.
  - reflexivity.
Defined.

(** C3 on the mode 'max'. *)
Lemma init_checks_aggregation_witness :
  MultiscalePointDecoder.init 16 4 3 1 32 2 "max" None None draws_half
    = Err NotImplementedError.
Proof.
  generalize (init_checks_aggregation 16 4 3 1 32 2 "max" None None draws_half).
  destruct (MultiscalePointDecoder.init 16 4 3 1 32 2 "max" None None draws_half) as [dec|e].
  - intros [_ [[E _]|[E _]]]; discriminate E.
  - intros [-> _]. reflexivity.
Defined.

(** C4 on a decoder with one block that takes its positional feature
    from depth 0, and a hierarchy without depth 1: the output is the one
    for a grid that samples zeros at depth 1, and not the one for a grid
    that samples ones there. *)
Lemma absent_depth_zero_feature_witness :
  exists dec,
    MultiscalePointDecoder.init 1 2 3 1 1 1 "cat" None (Some [0%Z]) draws_half = Ok dec /\
    list_getitem (grids svh2) 1 = Ok None /\
    coords_avoid dec svh2 1 /\
    MultiscalePointDecoder.sample_feat dec pts3 svh2 feat2 1 = Ok (zeros 3 1) /\
    exists out,
      MultiscalePointDecoder.forward dec pts3 svh2 feat2 = Ok out /\
      MultiscalePointDecoder.forward dec pts3
        {| grids := <[1%nat := Some grid_zero]> (grids svh2) |}
        (<[1%Z := zeros 2 1]> feat2) = Ok out /\
      MultiscalePointDecoder.forward dec pts3
        {| grids := <[1%nat := Some grid_one]> (grids svh2) |}
        (<[1%Z := zeros 2 1]> feat2) <> Ok out.
Proof.
  eexists. split; [reflexivity|].
  split; [reflexivity|].
  assert (Havoid : forall dec, MultiscalePointDecoder.coords_depths dec = [0%Z] ->
                               coords_avoid dec svh2 1).
  { intros dec E. unfold coords_avoid. rewrite E. repeat constructor. discriminate. }
  split; [apply Havoid; reflexivity|].
  match goal with |- MultiscalePointDecoder.sample_feat ?d _ _ _ _ = _ /\ _ =>
    destruct (absent_depth_zero_feature d 3 1 pts3 svh2 feat2 1 grid_zero (zeros 2 1))
      as (Hs & _ & Ht)
  end.
  - cbn. lia.
  - reflexivity.
  - apply Havoid; reflexivity.
  - reflexivity.
  - split; [exact Hs|].
    destruct Ht as (out & E & E').
    + apply (init_decoder_ok 1 2 3 1 1 1 "cat" None (Some [0%Z]) draws_half _ eq_refl).
    + reflexivity.
    + discriminate.
    + repeat constructor. exists grid2. reflexivity.
    + repeat constructor.
      exists {| ncols := 1; rows := [[1]; [Q2Qc 2]] |}. eexists.
      split; [reflexivity|]. split; [reflexivity|]. split; reflexivity.
    + exists out. split; [exact E|]. split; [exact E'|].
      rewrite <- E. intros E1. vm_compute in E1. discriminate E1.
Defined.

(** C5 on a decoder constructed with [out_init = 1/2]. *)
Lemma forward_at_init_witness :
  exists dec,
    MultiscalePointDecoder.init 1 2 3 1 1 1 "cat" (Some QcScalar.half) (Some [0%Z]) draws_half
      = Ok dec /\
    MultiscalePointDecoder.forward dec pts3 svh2 feat2
      = Ok {| ncols := 1; rows := repeat (repeat QcScalar.half 1) 3 |}.
Proof.
  eexists. split; [reflexivity|].
  eapply (forward_at_init 1 2 3 1 1 1 "cat" QcScalar.half (Some [0%Z]) draws_half).
  - reflexivity.
  - reflexivity.
  - discriminate.
  - lia.
  - repeat constructor. exists grid2. reflexivity.
  - repeat constructor.
    exists {| ncols := 1; rows := [[1]; [Q2Qc 2]] |}. eexists.
    split; [reflexivity|]. split; [reflexivity|]. split; reflexivity.
Defined.

(** C6 on three exact queries, and on the single-precision query 1/4
    below the origin. *)
Lemma pos_feat_local_coord_witness :
  (exists p y,
     MultiscalePointDecoder.pos_feat pts3 svh2 0 = Ok p /\
     has_shape p 3 3 /\
     entry p 2 0 = Some y /\ - QcScalar.half <= y /\ y < QcScalar.half /\
     MultiscalePointDecoder.pos_feat (translate (voxel_size grid2) pts3) svh2 0 = Ok p) /\
  (exists p y,
     MultiscalePointDecoder.pos_feat x_below svh_unit 0 = Ok p /\
     entry p 0 0 = Some (F32.Fin y) /\ - QcScalar.half <= y /\ y <= QcScalar.half /\
     MultiscalePointDecoder.pos_feat (translate (voxel_size grid_unit) x_below) svh_unit 0
       = Ok p).
Proof.
  destruct pos_feat_local_coord as [Hexact Hfloat]. split.
  - destruct (Hexact pts3 svh2 0%Z grid2 eq_refl) as (p & E & Hs & He & Ht).
    { intros a. apply Q_apart_0_1. }
    destruct (He 2%nat 0%nat (Q2Qc (1 # 4)) eq_refl) as (y & Ey & _ & Hl & Hu).
    exists p, y.
    split; [exact E|]. split; [exact Hs|]. split; [exact Ey|].
    split; [exact Hl|]. split; [exact Hu | exact Ht].
  - destruct (Hfloat x_below svh_unit 0%Z grid_unit eq_refl) as (p & E & _ & He & Ht).
    { intros a. exists 1. split; [reflexivity|]. split; [apply is_f32_1 | reflexivity]. }
    destruct (He 0%nat 0%nat (Q2Qc (-1 # 4)) eq_refl) as (y & Ey & _ & Hl & Hu).
    { apply is_f32b_correct. vm_compute. reflexivity. }
    exists p, y.
    split; [exact E|]. split; [exact Ey|]. split; [exact Hl|]. split; [exact Hu|].
    apply Ht. intros i a x Hx.
    destruct i as [|i]; [|discriminate Hx]. destruct a as [|a]; [|discriminate Hx].
    injection Hx as <-. exists (Q2Qc (-1 # 4)), 1.
    split; [reflexivity|]. split; [reflexivity|].
    apply is_f32b_correct. vm_compute. reflexivity.
Defined.


(** C8 on three points of which none lies in voxel 1. *)
Lemma forward_covers_voxels_witness :
  exists c,
    PointEncoder.forward encoder2 pts3 None svh2 0 = Ok c /\
    has_shape c 2 2 /\ wf_tensor c /\
    rows c !! 1%nat = Some [0; 0].
Proof.
  destruct (forward_covers_voxels encoder2 3 pts3 None svh2 0 grid2)
    as (_ & (c & E & Hs & Hwf & Hzero) & _).
  - apply init_encoder_ok. lia.
  - reflexivity.
  - reflexivity.
  - exact grid2_index_ok.
  - exists c. split; [exact E|]. split; [exact Hs|]. split; [exact Hwf|].
    apply (Hzero 1%nat).
    + cbn. lia.
    + vm_compute. intros [E1|[E1|[E1|[]]]]; discriminate E1.
Defined.

(** C9 at depth 1 of a hierarchy that has a grid at depth 0 only. *)
Lemma forward_requires_grid_witness :
  list_getitem (grids svh2) 1 = Ok None /\
  PointEncoder.forward encoder2 pts3 None svh2 1 = Err AssertionError.
Proof.
  split; [reflexivity|].
  apply (forward_requires_grid encoder2 pts3 None svh2 1). reflexivity.
Defined.

(** C10 on a decoder whose [coords_depths] are 0 and 1, depth 1 absent. *)
Lemma forward_requires_coords_grids_witness :
  In 1%Z (MultiscalePointDecoder.coords_depths decoder_both) /\
  list_getitem (grids svh2) 1 = Ok None /\
  is_err (MultiscalePointDecoder.forward decoder_both pts3 svh2 feat2) /\
  MultiscalePointDecoder.sample_feat decoder_both pts3 svh2 feat2 1 = Ok (zeros 3 1).
Proof.
  assert (Hin : In 1%Z (MultiscalePointDecoder.coords_depths decoder_both))
    by (right; left; reflexivity).
  split; [exact Hin|]. split; [reflexivity|].
  exact (proj2 (forward_requires_coords_grids decoder_both pts3 svh2 feat2 1 Hin eq_refl)).
Defined.

End Runs.

(** * Further properties of the three modules *)

(** ** [ResnetBlockFC]: which inputs a constructed block accepts *)

Section Block_accepts.
Context {T : Type} `{Scalar T}.

(** A constructed block accepts exactly the inputs of width [size_in]: for
    those it returns one row of width [size_out] per input row, for every
    other width the first layer raises. *)
Theorem fresh_block_accepts
    (n_in : nat) (n_out n_h : option nat) (rnd : nat -> Draw T) (x : Tensor T) :
  let blk := ResnetBlockFC.init n_in n_out n_h rnd in
  (ncols x = n_in ->
   exists y, ResnetBlockFC.forward blk x = Ok y /\
             has_shape y (nrows x) (ResnetBlockFC.size_out blk)) /\
  (ncols x <> n_in -> ResnetBlockFC.forward blk x = Err RuntimeError).
Proof.
  intros blk. split.
  - intros Hx.
    apply (block_forward_shape blk n_in); [apply block_init_ok | split; [reflexivity | exact Hx]].
  - intros Hx. unfold ResnetBlockFC.forward, Linear_forward.
    cbn [ncols map_tensor]. change (in_features (ResnetBlockFC.fc_0 blk)) with n_in.
    apply Nat.eqb_neq in Hx. rewrite Hx. reflexivity.
Qed.

End Block_accepts.

(** ** [PointEncoder]: errors of the forward pass *)

Section Encoder_errors.
Context {T : Type} `{Scalar T}.
Import PointEncoder.

(** Point features that are not one row per point make the mask selection
    raise [IndexError]. *)
Theorem forward_misaligned_features
    (enc : PointEncoder.t T) (pts_xyz f : Tensor T)
    (svh : SparseFeatureHierarchy T) (depth : Z) (grid : Grid T) :
  list_getitem (grids svh) depth = Ok (Some grid) ->
  nrows f <> nrows pts_xyz ->
  forward enc pts_xyz (Some f) svh depth = Err IndexError.
Proof.
  intros Hg Hf. unfold forward. rewrite Hg. cbn [bind].
  assert (Hmask : length (mask_of (voxel_ids grid pts_xyz)) = nrows pts_xyz).
  { unfold mask_of. rewrite length_map. apply voxel_ids_length. }
  destruct (tensor_mask_shape (local_xyz grid pts_xyz) (mask_of (voxel_ids grid pts_xyz)))
    as (xyz' & -> & _).
  { rewrite Hmask. unfold local_xyz, map_tensor, map_rows, nrows; cbn [rows].
    rewrite !length_map. reflexivity. }
  cbn [bind]. unfold tensor_mask at 1. rewrite Hmask.
  apply not_eq_sym in Hf. apply Nat.eqb_neq in Hf. rewrite Hf. reflexivity.
Qed.

(** The width that reaches [fc_pos]: the positions alone, or positions and
    features side by side. *)
Lemma fc_pos_input (enc : PointEncoder.t T) (pts_xyz : Tensor T)
    (pts_feature : option (Tensor T)) (grid : Grid T) (w : nat) :
  match pts_feature with
  | Some f => nrows f = nrows pts_xyz /\ ncols pts_xyz + ncols f = w
  | None => ncols pts_xyz = w
  end ->
  exists xyz' x,
    tensor_mask (local_xyz grid pts_xyz) (mask_of (voxel_ids grid pts_xyz)) = Ok xyz' /\
    ncols x = w /\
    match pts_feature with
    | Some f =>
        do f <- tensor_mask f (mask_of (voxel_ids grid pts_xyz));
        do xf <- cat1 [xyz'; f];
        Linear_forward (fc_pos enc) xf
    | None => Linear_forward (fc_pos enc) xyz'
    end = Linear_forward (fc_pos enc) x.
Proof.
  intros Hw.
  assert (Hmask : length (mask_of (voxel_ids grid pts_xyz)) = nrows pts_xyz).
  { unfold mask_of. rewrite length_map. apply voxel_ids_length. }
  destruct (tensor_mask_shape (local_xyz grid pts_xyz) (mask_of (voxel_ids grid pts_xyz)))
    as (xyz' & E & Hn & Hc).
  { rewrite Hmask. unfold local_xyz, map_tensor, map_rows, nrows; cbn [rows].
    rewrite !length_map. reflexivity. }
  change (ncols (local_xyz grid pts_xyz)) with (ncols pts_xyz) in Hc.
  exists xyz'. destruct pts_feature as [f|].
  - destruct Hw as [Hfn Hfw].
    destruct (tensor_mask_shape f (mask_of (voxel_ids grid pts_xyz)))
      as (f' & -> & Hfn' & Hfc'); [congruence|].
    cbn [bind].
    destruct (cat1_shape [xyz'; f'] (nrows xyz')) as (xf & -> & _ & Hxf).
    { discriminate. }
    { repeat constructor. congruence. }
    exists xf. split; [exact E|]. split; [|reflexivity].
    rewrite Hxf. unfold list_sum; cbn [map fold_right]. lia.
  - exists xyz'. split; [exact E|]. split; [congruence | reflexivity].
Qed.

(** Positions and features whose widths do not add up to the input width of
    [fc_pos] make that layer raise [RuntimeError]. *)
Theorem forward_width_mismatch
    (enc : PointEncoder.t T) (pts_xyz : Tensor T) (pts_feature : option (Tensor T))
    (svh : SparseFeatureHierarchy T) (depth : Z) (grid : Grid T) (w : nat) :
  list_getitem (grids svh) depth = Ok (Some grid) ->
  match pts_feature with
  | Some f => nrows f = nrows pts_xyz /\ ncols pts_xyz + ncols f = w
  | None => ncols pts_xyz = w
  end ->
  w <> in_features (fc_pos enc) ->
  forward enc pts_xyz pts_feature svh depth = Err RuntimeError.
Proof.
  intros Hg Hw Hne. unfold forward. rewrite Hg. cbn [bind].
  destruct (fc_pos_input enc pts_xyz pts_feature grid w Hw) as (xyz' & x & E & Hx & Ex).
  rewrite E. cbn [bind]. rewrite Ex. unfold Linear_forward. rewrite Hx.
  apply Nat.eqb_neq in Hne. rewrite Hne. reflexivity.
Qed.

(** An encoder constructed with [n_blocks = 0] never returns a tensor: on
    input of the right width, with a grid at the depth, [self.blocks[0]]
    raises [IndexError]. *)
Theorem forward_without_blocks
    (dim c hidden : nat) (rnd : nat -> Draw T)
    (pts_xyz : Tensor T) (pts_feature : option (Tensor T))
    (svh : SparseFeatureHierarchy T) (depth : Z) :
  let enc := init dim c hidden 0 rnd in
  is_err (forward enc pts_xyz pts_feature svh depth) /\
  (forall grid,
     list_getitem (grids svh) depth = Ok (Some grid) ->
     encoder_input_ok dim pts_xyz pts_feature ->
     forward enc pts_xyz pts_feature svh depth = Err IndexError).
Proof.
  intros enc. split.
  - unfold forward.
    destruct (list_getitem (grids svh) depth) as [[grid|]|e]; cbn [bind]; try exact I.
    destruct (tensor_mask _ _) as [xyz'|e]; cbn [bind]; [|exact I].
    match goal with |- is_err (bind ?m _) => destruct m as [pf|e] end; cbn [bind]; exact I.
  - intros grid Hg Hin. unfold forward. rewrite Hg. cbn [bind].
    assert (Hw : match pts_feature with
                 | Some f => nrows f = nrows pts_xyz /\ ncols pts_xyz + ncols f = dim
                 | None => ncols pts_xyz = dim
                 end) by exact Hin.
    destruct (fc_pos_input enc pts_xyz pts_feature grid dim Hw) as (xyz' & x & E & Hx & Ex).
    rewrite E. cbn [bind]. rewrite Ex. unfold Linear_forward. rewrite Hx.
    change (in_features (fc_pos enc)) with dim. rewrite Nat.eqb_refl. reflexivity.
Qed.

End Encoder_errors.

(** ** [MultiscalePointDecoder]: construction *)

Lemma range_sorted (n : nat) : Sorted Z.le (range n).
Proof.
  unfold range. change (map Z.of_nat (seq 0 n)) with (Z.of_nat <$> seq 0 n).
  apply (Sorted_fmap _ le Z.le); [intros x y Hxy; lia|].
  generalize 0. induction n as [|n IH]; intros s; simpl; constructor.
  - apply IH.
  - destruct n; simpl; constructor. lia.
Qed.

Section Decoder_coords.
Context {T : Type} `{Scalar T}.
Import MultiscalePointDecoder.

(** The constructor stores [coords_depths] in ascending order, with the
    same entries as it was given (duplicates kept); without an argument it
    stores [0, ..., multiscale_depths - 1]; and it sizes [fc_p] for
    [p_dim] coordinates per stored depth. *)
Theorem init_coords_sorted
    (c_each D p_dim n_out hidden nb : nat) (agg : string)
    (out_init : option T) (coords : option (list Z)) (rnd : nat -> Draw T)
    (dec : MultiscalePointDecoder.t T) :
  init c_each D p_dim n_out hidden nb agg out_init coords rnd = Ok dec ->
  Sorted Z.le (coords_depths dec) /\
  match coords with
  | Some l => coords_depths dec ≡ₚ l
  | None => coords_depths dec = range D
  end /\
  in_features (fc_p dec) = p_dim * length (coords_depths dec).
Proof.
  unfold init. intros E. inv_bind E. injection E as <-. cbn [coords_depths fc_p].
  split; [apply (Sorted_merge_sort Z.le)|]. split; [|reflexivity].
  destruct coords as [l|].
  - apply (merge_sort_Permutation Z.le).
  - apply (Sorted_unique Z.le).
    + apply (Sorted_merge_sort Z.le).
    + apply range_sorted.
    + apply (merge_sort_Permutation Z.le).
Qed.

(** With the default [coords_depths] every depth below
    [multiscale_depths] is read by the positional encoding, so a hierarchy
    with any of these grids absent cannot be decoded: the zero substitution
    of the sampling loop is never reached. *)
Theorem default_coords_need_all_grids
    (c_each D p_dim n_out hidden nb : nat) (agg : string)
    (out_init : option T) (rnd : nat -> Draw T)
    (dec : MultiscalePointDecoder.t T)
    (xyz : Tensor T) (svh : SparseFeatureHierarchy T)
    (multiscale_feat : gmap Z (Tensor T)) (k : nat) :
  init c_each D p_dim n_out hidden nb agg out_init None rnd = Ok dec ->
  k < D ->
  list_getitem (grids svh) (Z.of_nat k) = Ok None ->
  is_err (forward dec xyz svh multiscale_feat).
Proof.
  intros Hinit Hk Hnone.
  assert (Hin : In (Z.of_nat k) (coords_depths dec)).
  { apply (init_coords_depths _ _ _ _ _ _ _ _ _ _ _ _ Hinit). cbn.
    apply in_range. eauto. }
  unfold forward. apply bind_Err_l.
  apply (mapM_Err_In _ _ (Z.of_nat k) Hin). unfold pos_feat. rewrite Hnone. exact I.
Qed.

End Decoder_coords.

(** ** [MultiscalePointDecoder]: errors of the forward pass *)

Lemma bind_Err_r {A B} (m : result A) (k : A -> result B) :
  (forall a, is_err (k a)) -> is_err (bind m k).
Proof. intros Hk. destruct m; simpl; [apply Hk | exact I]. Qed.

Lemma foldM_first_Err {A B} (f : B -> A -> result B) (x : A) (l : list A) (b : B) :
  is_err (f b x) -> is_err (foldM f (x :: l) b).
Proof. intros Hx. simpl. apply bind_Err_l. exact Hx. Qed.

Section Decoder_errors.
Context {T : Type} `{Scalar T}.
Import MultiscalePointDecoder.

(** A depth below [multiscale_depths] that has a grid but no entry in
    [multiscale_feat] makes the sampling step raise [KeyError], and the
    forward pass fail. *)
Theorem forward_missing_feature
    (dec : MultiscalePointDecoder.t T) (xyz : Tensor T)
    (svh : SparseFeatureHierarchy T) (multiscale_feat : gmap Z (Tensor T))
    (k : nat) (grid : Grid T) :
  k < multiscale_depths dec ->
  list_getitem (grids svh) (Z.of_nat k) = Ok (Some grid) ->
  multiscale_feat !! Z.of_nat k = None ->
  sample_feat dec xyz svh multiscale_feat (Z.of_nat k) = Err KeyError /\
  is_err (forward dec xyz svh multiscale_feat).
Proof.
  intros Hk Hg Hf.
  assert (Hs : sample_feat dec xyz svh multiscale_feat (Z.of_nat k) = Err KeyError).
  { unfold sample_feat, dict_getitem. rewrite Hg. cbn [bind]. rewrite Hf. reflexivity. }
  split; [exact Hs|].
  unfold forward. apply bind_Err_r. intros p_feats. apply bind_Err_r. intros p.
  apply bind_Err_l.
  apply (mapM_Err_In _ _ (Z.of_nat k)); [apply in_range; eauto|].
  rewrite Hs. exact I.
Qed.

(** A decoder over zero depths cannot decode: 'cat' has nothing to
    concatenate, and with at least one block any other mode passes Python's
    integer 0, the sum of no tensors, to the first [fc_c] layer. *)
Theorem forward_zero_depths
    (dec : MultiscalePointDecoder.t T) (xyz : Tensor T)
    (svh : SparseFeatureHierarchy T) (multiscale_feat : gmap Z (Tensor T)) :
  multiscale_depths dec = 0 ->
  aggregation dec = "cat"%string \/ 0 < n_blocks dec ->
  is_err (forward dec xyz svh multiscale_feat).
Proof.
  intros HD Hcase. unfold forward. rewrite HD. cbn [range seq map mapM].
  apply bind_Err_r. intros p_feats. apply bind_Err_r. intros p. cbn [bind].
  unfold aggregate. destruct (String.eqb (aggregation dec) "cat") eqn:Eagg.
  - exact I.
  - destruct Hcase as [Hcat|Hnb].
    + rewrite Hcat in Eagg. discriminate Eagg.
    + cbn [py_sum foldM bind]. apply bind_Err_r. intros net.
      apply bind_Err_l. destruct (n_blocks dec) as [|nb]; [lia|].
      unfold range. cbn [seq map]. apply foldM_first_Err.
      unfold fuse_step.
      destruct (list_getitem (fc_c dec) (Z.of_nat 0)) as [fc|e]; cbn [bind]; exact I.
Qed.

(** A constructed decoder, whatever [out_init], returns one row of width
    [out_dim] per query point on every well-shaped input. *)
Theorem fresh_decoder_shape
    (c_each D p_dim n_out hidden nb : nat) (agg : string)
    (out_init : option T) (coords : option (list Z)) (rnd : nat -> Draw T)
    (dec : MultiscalePointDecoder.t T)
    (xyz : Tensor T) (svh : SparseFeatureHierarchy T)
    (multiscale_feat : gmap Z (Tensor T)) :
  init c_each D p_dim n_out hidden nb agg out_init coords rnd = Ok dec ->
  ncols xyz = p_dim ->
  coords_depths dec <> [] ->
  0 < D ->
  coords_grids_present dec svh ->
  samples_ok dec xyz svh multiscale_feat ->
  exists out, forward dec xyz svh multiscale_feat = Ok out /\
              has_shape out (nrows xyz) n_out.
Proof.
  intros Hinit Hxyz Hcoords HD Hgrids Hsamples.
  destruct (init_decoder_ok _ _ _ _ _ _ _ _ _ _ _ Hinit) as (Hok & Hout & _ & HDd).
  rewrite <- Hout.
  apply (forward_total dec p_dim hidden); try assumption. lia.
Qed.

End Decoder_errors.

(** ** [PointEncoder]: the coordinate inside the voxel *)

Section Cell_coord.
Import F32 QcScalar.
Local Open Scope Qc_scope.

(** Rounding a value half-way between two integers picks the even one. *)
Lemma rne_half_way (n : Z) :
  rne (Qc_of_Z n + half) = if Z.even n then n else (n + 1)%Z.
Proof.
  assert (Hf : floor (Qc_of_Z n + half) = n).
  { apply floor_unique; generalize (Qc_of_Z n); intros z; qc_lra. }
  unfold rne. rewrite Hf.
  replace (Qc_of_Z n + half - Qc_of_Z n) with half by ring.
  destruct (Qclt_le_dec half half) as [Hlt|_];
    [exfalso; revert Hlt; apply Qcle_not_lt, Qcle_refl|].
  reflexivity.
Qed.

Lemma to_int32_small (n : Z) : (- 2 ^ 31 <= n < 2 ^ 31)%Z -> to_int32 n = n.
Proof.
  intros Hn. unfold to_int32.
  destruct (Z.leb_spec (- 2 ^ 31) n); [|lia].
  destruct (Z.ltb_spec n (2 ^ 31)); [reflexivity | lia].
Qed.

Lemma Qcabs_of_Z (m : Z) : Qcabs.Qcabs (Qc_of_Z m) = Qc_of_Z (Z.abs m).
Proof.
  destruct (Z.le_ge_cases 0 m) as [Hm|Hm].
  - rewrite Z.abs_eq by exact Hm. apply Qcabs.Qcabs_pos.
    rewrite <- Z2Qc_inj_0. apply (proj1 (Z2Qc_inj_le _ _)). exact Hm.
  - rewrite Z.abs_neq by exact Hm. rewrite Z2Qc_inj_opp. apply Qcabs.Qcabs_neg.
    rewrite <- Z2Qc_inj_0. apply (proj1 (Z2Qc_inj_le _ _)). exact Hm.
Qed.

(** A significand of fewer than 24 bits at an exponent of the format is
    a float32 value. *)
Lemma is_f32_dyadic (m e : Z) :
  (Z.abs m < 2 ^ 24)%Z -> (-149 <= e <= 104)%Z ->
  is_f32 (Qc_of_Z m * pow2 e).
Proof.
  intros Hm He.
  destruct (Z.eq_dec m 0%Z) as [->|Hm0].
  { rewrite Z2Qc_inj_0, Qcmult_0_l. apply is_f32b_correct. vm_compute. reflexivity. }
  set (q := Qc_of_Z m * pow2 e).
  assert (Hq0 : q <> 0).
  { unfold q. intros E. apply Qcmult_integral in E as [E|E].
    - rewrite <- Z2Qc_inj_0 in E. apply Z2Qc_inj in E. contradiction.
    - revert E. apply pow2_neq_0. }
  assert (Hlt : Qcabs.Qcabs q < pow2 (24 + e)).
  { unfold q. rewrite Qcabs.Qcabs_Qcmult, Qcabs_of_Z.
    rewrite (Qcabs.Qcabs_pos (pow2 e)) by apply Qclt_le_weak, pow2_pos.
    rewrite pow2_add, (pow2_Z 24) by lia.
    apply Qcmult_lt_compat_r; [apply pow2_pos|].
    apply (proj1 (Z2Qc_inj_lt _ _)). exact Hm. }
  assert (Hq : (qexp q <= e)%Z).
  { pose proof (ilog2_lt _ _ (Qcabs_pos_lt q Hq0) Hlt).
    unfold qexp, emin, prec. lia. }
  assert (Hr : round_fin q = q).
  { unfold round_fin. remember (qexp q) as x eqn:Ex. set (u := pow2 x).
    assert (E : q / u = Qc_of_Z (m * 2 ^ (e - x))).
    { unfold q. replace (pow2 e) with (pow2 ((e - x) + x)) by (f_equal; lia).
      rewrite pow2_add, (pow2_Z (e - x)) by lia. rewrite Z2Qc_inj_mul.
      unfold u. field. apply pow2_neq_0. }
    rewrite E, rne_Z, <- E. apply div_mul_cancel, pow2_neq_0. }
  unfold is_f32, round. rewrite Hr.
  destruct (Qclt_le_dec _ _) as [_|Hge]; [reflexivity|].
  exfalso. apply (Qcle_not_lt _ _ Hge).
  eapply Qclt_le_trans; [exact Hlt|]. apply pow2_le. unfold emax. lia.
Qed.

Lemma is_f32_of_Z (z : Z) : (Z.abs z < 2 ^ 24)%Z -> is_f32 (Qc_of_Z z).
Proof.
  intros Hz. replace (Qc_of_Z z) with (Qc_of_Z z * pow2 0).
  - apply is_f32_dyadic; [exact Hz | lia].
  - rewrite (pow2_Z 0) by lia. change (2 ^ 0)%Z with 1%Z. rewrite Z2Qc_inj_1. ring.
Qed.

Lemma trunc_of_Z (z : Z) : trunc (Qc_of_Z z) = z.
Proof.
  unfold trunc. destruct (Qclt_le_dec _ _) as [_|_].
  - cbn [this Qc_of_Z]. rewrite <- inject_Z_opp, Qfloor_Z. lia.
  - cbn [this Qc_of_Z]. apply Qfloor_Z.
Qed.

(** A whole number has remainder 0 by 1. *)
Lemma rem_of_Z_1 (z : Z) : F32.rem (Fin (Qc_of_Z z)) F32.one = Fin 0.
Proof.
  unfold F32.rem, fmod, F32.one.
  assert (E1 : is_zero 1 = false) by reflexivity. rewrite E1.
  replace (Qc_of_Z z / 1) with (Qc_of_Z z) by (field; apply Q_apart_0_1).
  rewrite trunc_of_Z.
  replace (Qc_of_Z z - 1 * Qc_of_Z z) with 0 by ring.
  reflexivity.
Qed.

Lemma is_f32_pow2_32 : is_f32 (pow2 32).
Proof. apply is_f32b_correct. vm_compute. reflexivity. Qed.

(** The voxel-relative coordinate of a float32 grid coordinate in the
    range of a 32-bit integer. *)
Lemma cell_coord_range (g : Qc) :
  - pow2 31 <= g -> g <= pow2 31 ->
  exists y, cell_coord (Fin g) = Fin y /\ 0 <= y /\ y <= 1.
Proof.
  intros Hlo Hhi. unfold cell_coord. cbn [s_rem s_add s_half s_one F32.scalar].
  unfold F32.add, F32.half.
  assert (H32 : pow2 32 = pow2 31 + pow2 31).
  { replace 32%Z with (1 + 31)%Z by lia. rewrite pow2_add, (pow2_Z 1) by lia.
    change (2 ^ 1)%Z with 2%Z. rewrite Z2Qc_inj_2. ring. }
  assert (H31 : 1 <= pow2 31).
  { rewrite (pow2_Z 31) by lia. rewrite <- Z2Qc_inj_1.
    apply (proj1 (Z2Qc_inj_le _ _)). lia. }
  destruct (round_bounded (g + half) (pow2 32) is_f32_pow2_32) as (y0 & -> & _);
    [apply Qclt_le_weak, pow2_pos | rewrite H32; qc_lra | rewrite H32; qc_lra |].
  apply (rem_range y0 1 is_f32_1). reflexivity.
Qed.

(** The coordinates of line 93 are [cell_coord] of the grid coordinates. *)
Lemma entry_local_xyz (grid : Grid F32.t) (pts_xyz : Tensor F32.t)
    (i a : nat) (r : list F32.t) (x : F32.t) :
  rows (map_rows (world_to_grid grid) pts_xyz) !! i = Some r ->
  r !! a = Some x ->
  entry (PointEncoder.local_xyz grid pts_xyz) i a = Some (cell_coord x).
Proof.
  intros Hr Hx. unfold entry, PointEncoder.local_xyz, map_tensor; cbn [rows].
  rewrite lookup_map, Hr. cbn [option_map]. rewrite lookup_map, Hx. reflexivity.
Qed.

(** In single precision, for the grid coordinates [r] of point [i]: the
    voxel looked up for the point is the one at the rounded coordinates;
    a coordinate in the range of a 32-bit integer has a voxel-relative
    coordinate in [[0, 1]]; and a coordinate exactly half-way between the
    integers [n] and [n + 1] is a float32 value, is rounded to the even
    one of the two, and has the voxel-relative coordinate 0.  So both
    faces of a voxel with an even index [n], at [n - 1/2] and at
    [n + 1/2], are routed to it with the coordinate 0. *)
Theorem cell_coord_float32 (grid : Grid F32.t) (pts_xyz : Tensor F32.t)
    (i a : nat) (r : list F32.t) :
  rows (map_rows (world_to_grid grid) pts_xyz) !! i = Some r ->
  PointEncoder.voxel_ids grid pts_xyz !! i
    = Some (ijk_to_index grid (map s_round_int r)) /\
  (forall g, r !! a = Some (Fin g) -> is_f32 g ->
     - pow2 31 <= g -> g <= pow2 31 ->
     exists y, entry (PointEncoder.local_xyz grid pts_xyz) i a = Some (Fin y) /\
               0 <= y /\ y <= 1) /\
  (forall n, r !! a = Some (Fin (Qc_of_Z n + half)) ->
     (- 2 ^ 22 <= n <= 2 ^ 22)%Z ->
     is_f32 (Qc_of_Z n + half) /\
     map s_round_int r !! a = Some (if Z.even n then n else (n + 1)%Z) /\
     entry (PointEncoder.local_xyz grid pts_xyz) i a = Some (Fin 0)).
Proof.
  intros Hr. split; [|split].
  - unfold PointEncoder.voxel_ids. rewrite lookup_map, Hr. reflexivity.
  - intros g Hg _ Hlo Hhi.
    destruct (cell_coord_range g Hlo Hhi) as (y & Ey & Hy).
    exists y. rewrite (entry_local_xyz grid pts_xyz i a r _ Hr Hg), Ey.
    split; [reflexivity | exact Hy].
  - intros n Hg Hn. split; [|split].
    + replace (Qc_of_Z n + half) with (Qc_of_Z (2 * n + 1) * pow2 (-1)).
      * apply is_f32_dyadic; lia.
      * rewrite Z2Qc_inj_add, Z2Qc_inj_mul, Z2Qc_inj_2, Z2Qc_inj_1.
        replace (pow2 (-1)) with half by (apply Qc_is_canon; reflexivity).
        replace ((2 * Qc_of_Z n + 1) * half) with (Qc_of_Z n * (half + half) + half) by ring.
        rewrite half_add_half_1. ring.
    + rewrite lookup_map, Hg. cbn [option_map s_round_int F32.scalar F32.round_int].
      rewrite rne_half_way, to_int32_small; [reflexivity|]. destruct (Z.even n); lia.
    + rewrite (entry_local_xyz grid pts_xyz i a r _ Hr Hg). f_equal.
      unfold cell_coord. cbn [s_rem s_add s_half s_one F32.scalar].
      unfold F32.add, F32.half.
      replace (Qc_of_Z n + half + half) with (Qc_of_Z (n + 1))
        by (rewrite Z2Qc_inj_add, Z2Qc_inj_1, <- half_add_half_1; ring).
      rewrite (is_f32_of_Z (n + 1)) by lia.
      apply rem_of_Z_1.
Qed.

End Cell_coord.

(** ** [PointEncoder]: each voxel's code comes from its own points *)


Lemma mask_select_nil_l {A} (m : list bool) : mask_select (@nil A) m = [].
Proof. reflexivity. Qed.

Lemma mask_select_nil_r {A} (l : list A) : mask_select l [] = [].
Proof. destruct l; reflexivity. Qed.















Section Select.
Context {T : Type} `{Scalar T}.







End Select.

Section Locality.
Context {T : Type} `{Scalar T}.
Import PointEncoder.












End Locality.

(** ** [PointEncoder]: the order of the points *)









Section Perm.
Context {T : Type} `{Scalar T}.

Local Abbreviation ST := (list T * Z)%type.









Lemma Linear_forward_rows (L : Linear T) (x y : Tensor T) :
  Linear_forward L x = Ok y ->
  forall x', ncols x' = ncols x ->
    Linear_forward L x' = Ok {| ncols := ncols y; rows := map (affine L) (rows x') |}.
Proof.
  unfold Linear_forward. destruct (ncols x =? in_features L) eqn:E; [|discriminate].
  intros [= <-] x' Hx'. rewrite Hx', E. reflexivity.
Qed.

Lemma block_forward_rows (blk : ResnetBlockFC.t T) (x y : Tensor T) :
  ResnetBlockFC.forward blk x = Ok y ->
  forall x', ncols x' = ncols x ->
    ResnetBlockFC.forward blk x'
      = Ok {| ncols := ncols y; rows := map (block_row blk (ncols x)) (rows x') |}.
Proof.
  unfold ResnetBlockFC.forward. intros E x' Hx'.
  apply bind_Ok_inv in E as (net & Enet & E).
  apply bind_Ok_inv in E as (dx & Edx & E).
  apply bind_Ok_inv in E as (x_s & Exs & E).
  rewrite (Linear_forward_rows _ _ _ Enet (map_tensor relu x')) by exact Hx'. cbn [bind].
  pose proof (Linear_forward_Ok_shape _ _ _ Edx) as (_ & [_ Hdxc] & _).
  rewrite (Linear_forward_rows _ _ _ Edx) by reflexivity. cbn [bind].
  unfold map_tensor at 1 2; cbn [rows ncols].
  assert (Hxs : exists cs,
            cs = match ResnetBlockFC.shortcut blk with
                 | Some s => out_features s
                 | None => ncols x
                 end /\ ncols x_s = cs /\
            match ResnetBlockFC.shortcut blk with
            | Some s => Linear_forward s x'
            | None => Ok x'
            end = Ok {| ncols := cs; rows := map (shortcut_row blk) (rows x') |}).
  { unfold shortcut_row. destruct (ResnetBlockFC.shortcut blk) as [s|].
    - eexists. split; [reflexivity|].
      pose proof (Linear_forward_Ok_shape _ _ _ Exs) as (_ & [_ Hc] & _).
      split; [exact Hc|]. rewrite (Linear_forward_rows _ _ _ Exs x' Hx'), Hc. reflexivity.
    - injection Exs as <-. eexists. split; [reflexivity|]. split; [reflexivity|].
      rewrite map_id. destruct x' as [c' r']; cbn in *. rewrite Hx'. reflexivity. }
  destruct Hxs as (cs & Hcs & Hxc & ->). cbn [bind].
  unfold tensor_add in *. unfold nrows in *; cbn [rows ncols] in *.
  rewrite !length_map, broadcast_dim_same. rewrite Hxc, Hdxc in E. rewrite Hdxc.
  destruct (broadcast_dim (length (rows x_s)) (length (rows dx))) as [n|]; [|discriminate].
  unfold block_row. rewrite <- Hcs.
  destruct (broadcast_dim cs (out_features (ResnetBlockFC.fc_1 blk))) as [c'|];
    [|discriminate].
  injection E as <-. cbn [ncols]. rewrite !expand_same. do 2 f_equal.
  rewrite !map_map. rewrite map2_map_same. reflexivity.
Qed.

End Perm.

Section Perm_stages.
Context {T : Type} `{Scalar T} `{!CommScalar T}.
Import PointEncoder.
Local Abbreviation ST := (list T * Z)%type.




End Perm_stages.




Section Perm_main.
Context {T : Type} `{Scalar T} `{!CommScalar T}.
Import PointEncoder.




End Perm_main.

(** ** [ResnetBlockFC]: rows are transformed one by one *)

Section Block_rows.
Context {T : Type} `{Scalar T}.

(** Whether a block accepts an input depends on its width only, and every
    output row is [block_row] of the input row at the same position: no
    row influences another. *)
Theorem block_forward_rowwise (blk : ResnetBlockFC.t T) (x y x' : Tensor T) :
  ResnetBlockFC.forward blk x = Ok y ->
  ncols x' = ncols x ->
  ResnetBlockFC.forward blk x'
    = Ok {| ncols := ncols y; rows := map (block_row blk (ncols x)) (rows x') |}.
Proof. intros E Hx'. apply (block_forward_rows blk x y E x' Hx'). Qed.

End Block_rows.

(** ** The rationals: sums and maxima are commutative and associative *)

Lemma Qc_max_cases (x y : Qc) :
  (Qclt x y /\ QcScalar.max x y = y) \/ (Qcle y x /\ QcScalar.max x y = x).
Proof. unfold QcScalar.max. destruct (Qclt_le_dec x y); auto. Qed.

#[global] Instance Qc_comm : CommScalar Qc.
Proof.
  split; cbn [s_add s_max QcScalar.scalar].
  - apply Qcplus_comm.
  - intros x y z. symmetry. apply Qcplus_assoc.
  - intros x y.
    destruct (Qc_max_cases x y) as [[H1 ->]|[H1 ->]],
             (Qc_max_cases y x) as [[H2 ->]|[H2 ->]];
      try reflexivity; apply Qcle_antisym;
      unfold Qcle, Qclt in *; destruct x as [x cx], y as [y cy]; simpl in *; lra.
  - intros x y z.
    destruct (Qc_max_cases x y) as [[H1 E1]|[H1 E1]],
             (Qc_max_cases y z) as [[H2 E2]|[H2 E2]]; rewrite E1, E2;
      try rewrite E1; try rewrite E2;
      repeat match goal with
             | |- context [QcScalar.max ?a ?b] =>
                 let H := fresh "H" in let E := fresh "E" in
                 destruct (Qc_max_cases a b) as [[H E]|[H E]]; rewrite E
             end;
      try reflexivity; apply Qcle_antisym;
      unfold Qcle, Qclt in *;
      destruct x as [x cx], y as [y cy], z as [z cz]; simpl in *; lra.
Qed.

(** ** [MultiscalePointDecoder]: which features are read *)

Section Decoder_reads.
Context {T : Type} `{Scalar T}.
Import MultiscalePointDecoder.

(** The forward pass reads [multiscale_feat] only at the depths below
    [multiscale_depths] that have a grid: two feature maps that agree there
    give the same result, whatever else they hold. *)
Theorem forward_reads_present_depths
    (dec : MultiscalePointDecoder.t T) (xyz : Tensor T)
    (svh : SparseFeatureHierarchy T) (feat feat' : gmap Z (Tensor T)) :
  (forall (k : nat) (grid : Grid T),
     k < multiscale_depths dec ->
     list_getitem (grids svh) (Z.of_nat k) = Ok (Some grid) ->
     feat !! Z.of_nat k = feat' !! Z.of_nat k) ->
  forward dec xyz svh feat = forward dec xyz svh feat'.
Proof.
  intros Hagree. unfold forward.
  replace (mapM (sample_feat dec xyz svh feat') (range (multiscale_depths dec)))
    with (mapM (sample_feat dec xyz svh feat) (range (multiscale_depths dec)));
    [reflexivity|].
  apply mapM_ext. intros did Hin. apply in_range in Hin as (k & -> & Hk).
  unfold sample_feat.
  destruct (list_getitem (grids svh) (Z.of_nat k)) as [[grid|]|e] eqn:Hg; cbn [bind];
    try reflexivity.
  unfold dict_getitem. rewrite (Hagree k grid Hk Hg). reflexivity.
Qed.

End Decoder_reads.

(** ** The further results on concrete inputs *)

Section Runs_extra.
Import Examples Examples_extra.
Local Open Scope Qc_scope.

(** A block from width 1 to width 2 on inputs of width 1 and of width 3. *)
Lemma fresh_block_accepts_witness :
  (exists y, ResnetBlockFC.forward block_1_2 x_two = Ok y /\ has_shape y 2 2) /\
  ResnetBlockFC.forward block_1_2 pts3 = Err RuntimeError.
Proof.
  destruct (fresh_block_accepts 1 (Some 2%nat) None draws_half x_two) as [Hok _].
  destruct (fresh_block_accepts 1 (Some 2%nat) None draws_half pts3) as [_ Herr].
  split; [apply Hok; reflexivity | apply Herr; discriminate].
Defined.

(** The same block on one row and on two rows. *)
Lemma block_forward_rowwise_witness :
  exists y,
    ResnetBlockFC.forward block_1_2 x_origin = Ok y /\
    ResnetBlockFC.forward block_1_2 x_two
      = Ok {| ncols := ncols y; rows := map (block_row block_1_2 1) (rows x_two) |}.
Proof.
  assert (E : exists y, ResnetBlockFC.forward block_1_2 x_origin = Ok y)
    by (vm_compute; eexists; reflexivity).
  destruct E as (y & E). exists y. split; [exact E|].
  apply (block_forward_rowwise block_1_2 x_origin y x_two E). reflexivity.
Defined.

(** Three points with features for two of them. *)
Lemma forward_misaligned_features_witness :
  nrows feats_short <> nrows pts3 /\
  PointEncoder.forward encoder2f pts3 (Some feats_short) svh2 0 = Err IndexError.
Proof.
  split; [discriminate|].
  apply (forward_misaligned_features encoder2f pts3 feats_short svh2 0 grid2).
  - reflexivity.
  - discriminate.
Defined.

(** An encoder for positions alone that is given features too. *)
Lemma forward_width_mismatch_witness :
  PointEncoder.forward encoder2 pts3 (Some feats3) svh2 0 = Err RuntimeError.
Proof.
  apply (forward_width_mismatch encoder2 pts3 (Some feats3) svh2 0 grid2 4).
  - reflexivity.
  - split; reflexivity.
  - discriminate.
Defined.

(** An encoder constructed with no blocks. *)
Lemma forward_without_blocks_witness :
  PointEncoder.forward (PointEncoder.init 3 2 1 0 draws_half) pts3 None svh2 0
    = Err IndexError.
Proof.
  destruct (forward_without_blocks 3 2 1 draws_half pts3 None svh2 0) as [_ Herr].
  apply (Herr grid2); reflexivity.
Defined.

(** Construction with [coords_depths = [2, 0, 1]]. *)
Lemma init_coords_sorted_witness :
  exists dec,
    MultiscalePointDecoder.init 1 3 3 1 1 1 "cat" None (Some [2; 0; 1]%Z) draws_half = Ok dec /\
    Sorted Z.le (MultiscalePointDecoder.coords_depths dec) /\
    MultiscalePointDecoder.coords_depths dec ≡ₚ [2; 0; 1]%Z.
Proof.
  eexists. split; [reflexivity|].
  destruct (init_coords_sorted 1 3 3 1 1 1 "cat" None (Some [2; 0; 1]%Z) draws_half _ eq_refl)
    as (Hs & Hp & _).
  split; [exact Hs | exact Hp].
Defined.

(** The default [coords_depths] on a hierarchy without depth 1. *)
Lemma default_coords_need_all_grids_witness :
  exists dec,
    MultiscalePointDecoder.init 1 2 3 1 1 1 "cat" None None draws_half = Ok dec /\
    is_err (MultiscalePointDecoder.forward dec pts3 svh2 feat2).
Proof.
  eexists. split; [reflexivity|].
  apply (default_coords_need_all_grids 1 2 3 1 1 1 "cat" None draws_half _ pts3 svh2 feat2 1).
  - reflexivity.
  - lia.
  - reflexivity.
Defined.

(** Depth 0 has a grid, the feature map is empty. *)
Lemma forward_missing_feature_witness :
  MultiscalePointDecoder.sample_feat decoder_cat pts3 svh2 ∅ 0 = Err KeyError /\
  is_err (MultiscalePointDecoder.forward decoder_cat pts3 svh2 ∅).
Proof.
  apply (forward_missing_feature decoder_cat pts3 svh2 ∅ 0 grid2).
  - cbn. lia.
  - reflexivity.
  - reflexivity.
Defined.

(** A 'sum' decoder over no depths, with one block. *)
Lemma forward_zero_depths_witness :
  is_err (MultiscalePointDecoder.forward decoder_no_depths pts3 svh2 feat2).
Proof.
  apply (forward_zero_depths decoder_no_depths pts3 svh2 feat2).
  - reflexivity.
  - right. cbn. lia.
Defined.

(** A decoder constructed without [out_init], on three query points. *)
Lemma fresh_decoder_shape_witness :
  exists dec out,
    MultiscalePointDecoder.init 1 2 3 1 1 1 "sum" None (Some [0%Z]) draws_half = Ok dec /\
    MultiscalePointDecoder.forward dec pts3 svh2 feat2 = Ok out /\
    has_shape out 3 1.
Proof.
  eexists.
  destruct (fresh_decoder_shape 1 2 3 1 1 1 "sum" None (Some [0%Z]) draws_half _
              pts3 svh2 feat2 eq_refl) as (out & E & Hs).
  - reflexivity.
  - discriminate.
  - lia.
  - repeat constructor. exists grid2. reflexivity.
  - repeat constructor.
    exists {| ncols := 1; rows := [[1]; [Q2Qc 2]] |}. eexists.
    split; [reflexivity|]. split; [reflexivity|]. split; reflexivity.
  - exists out. split; [reflexivity|]. split; [exact E | exact Hs].
Defined.

(** Feature maps that differ at the absent depth 1 and at depth 7. *)
Lemma forward_reads_present_depths_witness :
  MultiscalePointDecoder.forward decoder_cat pts3 svh2 feat2
    = MultiscalePointDecoder.forward decoder_cat pts3 svh2 feat2_more.
Proof.
  apply (forward_reads_present_depths decoder_cat pts3 svh2 feat2 feat2_more).
  intros k grid Hk Hg. cbn in Hk.
  destruct k as [|[|k]]; [reflexivity | discriminate Hg | lia].
Defined.

(** The points at (5/2, 1/4, 0) and (3/2, 0, 0) in unit voxels: the first
    coordinate of both is rounded to 2, and for both the coordinate
    inside the voxel is 0. *)
Lemma cell_coord_float32_witness :
  (exists y, entry (PointEncoder.local_xyz grid_unit pts_tie) 0 1 = Some (F32.Fin y) /\
             0 <= y /\ y <= 1) /\
  F32.is_f32 (Qc_of_Z 2 + QcScalar.half) /\
  F32.is_f32 (Qc_of_Z 1 + QcScalar.half) /\
  map s_round_int
      [F32.Fin (Qc_of_Z 2 + QcScalar.half); F32.Fin (Q2Qc (1 # 4)); F32.Fin 0] !! 0%nat
    = Some 2%Z /\
  map s_round_int
      [F32.Fin (Qc_of_Z 1 + QcScalar.half); F32.Fin 0; F32.Fin 0] !! 0%nat
    = Some 2%Z /\
  entry (PointEncoder.local_xyz grid_unit pts_tie) 0 0 = Some (F32.Fin 0) /\
  entry (PointEncoder.local_xyz grid_unit pts_tie) 1 0 = Some (F32.Fin 0).
Proof.
  pose (r0 := [F32.Fin (Qc_of_Z 2 + QcScalar.half); F32.Fin (Q2Qc (1 # 4)); F32.Fin 0]).
  pose (r1 := [F32.Fin (Qc_of_Z 1 + QcScalar.half); F32.Fin 0; F32.Fin 0]).
  destruct (cell_coord_float32 grid_unit pts_tie 0 1 r0 eq_refl) as (_ & Hr & _).
  destruct (cell_coord_float32 grid_unit pts_tie 0 0 r0 eq_refl) as (_ & _ & Ht0).
  destruct (cell_coord_float32 grid_unit pts_tie 1 0 r1 eq_refl) as (_ & _ & Ht1).
  destruct (Hr (Q2Qc (1 # 4)) eq_refl) as (y & Ey & Hy).
  { apply is_f32b_correct. vm_compute. reflexivity. }
  { unfold Qcle. vm_compute. discriminate. }
  { unfold Qcle. vm_compute. discriminate. }
  destruct (Ht0 2%Z eq_refl) as (Hf0 & Hi0 & Hz0); [lia|].
  destruct (Ht1 1%Z eq_refl) as (Hf1 & Hi1 & Hz1); [lia|].
  split; [exists y; split; [exact Ey | exact Hy]|].
  split; [exact Hf0|]. split; [exact Hf1|].
  split; [exact Hi0|]. split; [exact Hi1|].
  split; [exact Hz0 | exact Hz1].
Defined.



End Runs_extra.
